(** * The F4PGA build flow: dependency resolution and incremental build

    A shallow embedding of [f4pga/__init__.py]: the helpers that inspect
    resolved dependency paths ([req_exists], [dep_differ],
    [update_dep_statuses]), the construction of the output-stage map
    ([map_outputs_to_stages]) and the [Flow] class with its planning pass
    ([_resolve_dependencies]) and its execution pass ([_build_dep],
    [execute]).

    Python objects that are mutated in place (the flow's dictionaries and
    sets, the stages' value overrides, the cache, the files on the drive)
    are fields of one state record that every operation threads through;
    Python exceptions are an outcome of their own. *)

From stdpp Require Import base option list gmap sets strings sorting.

Open Scope string_scope.
Open Scope list_scope.

(** ** Values *)

(** The value of a resolved dependency: Python's [None], a [str], a [list]
    or a [dict] of such values (an insertion-ordered dictionary is kept as
    its list of items). *)
#[warnings="-register-all"]
Inductive pyval : Type :=
| PNone
| PStr (s : string)
| PList (l : list pyval)
| PDict (d : list (string * pyval)).

(** Python truthiness, as used by [if paths:] and [if not paths:]. *)
Definition truthy (v : pyval) : bool :=
  match v with
  | PNone => false
  | PStr s => negb (bool_decide (s = ""))
  | PList l => negb (bool_decide (l = []))
  | PDict d => negb (bool_decide (d = []))
  end.

Definition is_none (v : pyval) : bool :=
  match v with PNone => true | _ => false end.

(** [d.get(k)]: [None] when the key is missing. *)
Definition dict_get (d : gmap string pyval) (k : string) : pyval :=
  default PNone (d !! k).

(** [d.update(items)] and [dict(items)]: later items win. *)
Definition dict_update (d : gmap string pyval) (items : list (string * pyval))
  : gmap string pyval :=
  foldl (fun acc kv => <[kv.1 := kv.2]> acc) d items.

Definition dict_of_items (items : list (string * pyval)) : gmap string pyval :=
  dict_update ∅ items.

(** ** Stages *)

(** An input or output of a stage; [spec] is one of the strings ['req'],
    ['maybe'] and ['demand']. *)
Record IO : Type := mkIO { io_name : string; spec : string }.

(** A stage: its name, the module it runs, what it takes and what it
    produces.  The mutable [value_overrides] of a stage live in the flow
    state below.  Stages are compared as Python compares objects without
    [__eq__]; the stages of a flow are created one per key of the
    platform's stage dictionary ([platform_stages]), so two different
    stage objects are two different records. *)
Record Stage : Type := mkStage {
  name : string;
  module : string;
  takes : list IO;
  produces : list IO
}.

#[global] Instance IO_eq_dec : EqDecision IO.
Proof. solve_decision. Defined.

#[global] Instance Stage_eq_dec : EqDecision Stage.
Proof. solve_decision. Defined.

(** ** Exceptions *)

Inductive error : Type :=
| RequirementsTypeError (r : pyval)
  (** [Exception('Requirements can be currently checked only for ...')] *)
| MultipleProviders (output first second : string)
  (** [Exception('Dependency ... is generated by stage ... and ...')] *)
| FatalWrongPathsType
  (** [fatal(-1, 'WRONG PATHS TYPE')] *)
| FatalNoMapping (stage output : string)
  (** [fatal(-1, 'Module ... did not produce a mapping for a required output ...')] *)
| DependencyNotProducedException (dep_name provider : string)
| AssertionError
| KeyError (key : string)
| ModuleFailure (stage : string)
  (** whatever the module's execution raised *).

Inductive result (A : Type) : Type :=
| Ok (a : A)
| Err (e : error).
Arguments Ok {A} a.
Arguments Err {A} e.

(** ** The drive *)

(** The files of the drive with a digest of their content, keyed by the
    path string the flow uses for them. *)
Abbreviation Drive := (gmap string nat).

(** [Path(p).exists()] *)
Definition path_exists (fs : Drive) (p : string) : bool :=
  bool_decide (is_Some (fs !! p)).

(** [req_exists]: a string is checked on the drive; a list is searched
    for a [False] among the (lazily mapped) checks of its items; anything
    else raises. *)
Fixpoint req_exists (fs : Drive) (r : pyval) : result bool :=
  match r with
  | PStr s => Ok (path_exists fs s)
  | PList l =>
      let false_in :=
        fix false_in (l : list pyval) : result bool :=
          match l with
          | [] => Ok false
          | x :: rest =>
              match req_exists fs x with
              | Err e => Err e
              | Ok false => Ok true
              | Ok true => false_in rest
              end
          end in
      match false_in l with
      | Ok found => Ok (negb found)
      | Err e => Err e
      end
  | _ => Err (RequirementsTypeError r)
  end.

(** ** The output-stage map *)

(** One iteration of the inner loop of [map_outputs_to_stages]. *)
Definition register_output (stage : Stage) (os_map : gmap string Stage) (output : IO)
  : result (gmap string Stage) :=
  match os_map !! io_name output with
  | None => Ok (<[io_name output := stage]> os_map)
  | Some owner =>
      if decide (owner = stage) then Ok os_map
      else Err (MultipleProviders (io_name output) (name owner) (name stage))
  end.

Fixpoint register_outputs (stage : Stage) (os_map : gmap string Stage) (outputs : list IO)
  : result (gmap string Stage) :=
  match outputs with
  | [] => Ok os_map
  | output :: rest =>
      match register_output stage os_map output with
      | Ok os_map' => register_outputs stage os_map' rest
      | Err e => Err e
      end
  end.

Fixpoint register_stages (os_map : gmap string Stage) (stages : list Stage)
  : result (gmap string Stage) :=
  match stages with
  | [] => Ok os_map
  | stage :: rest =>
      match register_outputs stage os_map (produces stage) with
      | Ok os_map' => register_stages os_map' rest
      | Err e => Err e
      end
  end.

Definition map_outputs_to_stages (stages : list Stage) : result (gmap string Stage) :=
  register_stages ∅ stages.

(** ** The collaborators

    The cache ([f4pga.cache.F4Cache]) and the module runner
    ([f4pga.module_runner]) are used through their interface only: the
    flow is embedded over any implementation of it.  A cache operation may
    look at the drive; [module_map] is the module's cheap prediction of
    its outputs, [module_exec] its execution, which changes the drive or
    raises ([None]). *)

(** The configuration handed to a module ([prepare_stage_input]). *)
Record ModRunCtx : Type := mkModRunCtx {
  cfg_takes : gmap string pyval;
  cfg_produces : gmap string pyval;
  cfg_values : gmap string pyval
}.

Class Collaborators : Type := {
  F4Cache : Type;
  cache_update : Drive → string → string → F4Cache → bool * F4Cache;
  cache_get_status : Drive → string → string → F4Cache → string;
  cache_process_file : Drive → string → F4Cache → F4Cache;
  module_map : string → ModRunCtx → list (string * pyval);
  module_exec : string → ModRunCtx → Drive → option Drive
}.

(** What the flow prints ([sfprint]), with the verbosity of the message. *)
Inductive message : Type :=
| MsgUnreachable (stage take : string)
| MsgCausingRebuild (take stage : string)
| MsgUnresolved (dep : string)
| MsgSkippingRebuild (dep : string)
| MsgTarget (target : string) (paths : pyval).

(** The flow configuration: the stages, in the order of [cfg.stages], and
    the items of [cfg.get_dependency_overrides()]. *)
Record FlowConfig : Type := mkFlowConfig {
  stages : list Stage;
  dependency_overrides : list (string * pyval)
}.

Section Flow.

Context `{Collaborators}.

(** ** Dependency statuses *)

Fixpoint update_dep_statuses (fs : Drive) (paths : pyval) (consumer : string)
    (cache : F4Cache) : result (bool * F4Cache) :=
  match paths with
  | PStr p => Ok (cache_update fs p consumer cache)
  | PList (p :: _) => update_dep_statuses fs p consumer cache
  | PDict ((_, p) :: _) => update_dep_statuses fs p consumer cache
  | _ => Err FatalWrongPathsType
  end.

Fixpoint dep_differ (fs : Drive) (paths : pyval) (consumer : string)
    (cache : F4Cache) : bool :=
  match paths with
  | PStr p =>
      if negb (path_exists fs p) then true
      else negb (bool_decide (cache_get_status fs p consumer cache = "same"))
  | PList l => existsb (fun p => dep_differ fs p consumer cache) l
  | PDict d => existsb (fun kv => dep_differ fs (snd kv) consumer cache) d
  | PNone => false
  end.

Definition dep_will_differ (fs : Drive) (target : string) (paths : pyval)
    (consumer : string) (os_map : gmap string Stage) (run_stages : gset string)
    (cache : F4Cache) : bool :=
  match os_map !! target with
  | Some provider =>
      bool_decide (name provider ∈ run_stages) || dep_differ fs paths consumer cache
  | None => dep_differ fs paths consumer cache
  end.

(** Modelled from the spec: [_cache_deps = deep(_process_dep_path)], where
    [deep] ([f4pga.common]) is not part of the sources: every path of the
    value is registered with the cache. *)
Fixpoint _cache_deps (fs : Drive) (paths : pyval) (cache : F4Cache) : F4Cache :=
  match paths with
  | PStr p => cache_process_file fs p cache
  | PList l => fold_left (fun c p => _cache_deps fs p c) l cache
  | PDict d => fold_left (fun c kv => _cache_deps fs (snd kv) c) d cache
  | PNone => cache
  end.

(** ** The flow and what it mutates *)

(** The attributes of a [Flow] object, the two sets shared by the calls of
    one resolution pass, the value overrides of the stages (by stage
    name), the drive, what was printed and the stages whose module was
    executed (latest first). *)
Record Flow : Type := mkFlow {
  target : string;
  cfg : FlowConfig;
  os_map : gmap string Stage;
  dep_paths : gmap string pyval;
  run_stages : gset string;
  deps_rebuilds : gmap string nat;
  f4cache : option F4Cache;
  stages_checked : gset string;
  skip_dep_warnings : gset string;
  value_overrides : gmap string (gmap string pyval);
  drive : Drive;
  printed : list (nat * message);
  executed : list string
}.

Definition upd_os_map (f : gmap string Stage → gmap string Stage) (st : Flow) : Flow :=
  mkFlow (target st) (cfg st) (f (os_map st)) (dep_paths st) (run_stages st) (deps_rebuilds st) (f4cache st) (stages_checked st) (skip_dep_warnings st) (value_overrides st) (drive st) (printed st) (executed st).

Definition upd_dep_paths (f : gmap string pyval → gmap string pyval) (st : Flow) : Flow :=
  mkFlow (target st) (cfg st) (os_map st) (f (dep_paths st)) (run_stages st) (deps_rebuilds st) (f4cache st) (stages_checked st) (skip_dep_warnings st) (value_overrides st) (drive st) (printed st) (executed st).

Definition upd_run_stages (f : gset string → gset string) (st : Flow) : Flow :=
  mkFlow (target st) (cfg st) (os_map st) (dep_paths st) (f (run_stages st)) (deps_rebuilds st) (f4cache st) (stages_checked st) (skip_dep_warnings st) (value_overrides st) (drive st) (printed st) (executed st).

Definition upd_deps_rebuilds (f : gmap string nat → gmap string nat) (st : Flow) : Flow :=
  mkFlow (target st) (cfg st) (os_map st) (dep_paths st) (run_stages st) (f (deps_rebuilds st)) (f4cache st) (stages_checked st) (skip_dep_warnings st) (value_overrides st) (drive st) (printed st) (executed st).

Definition upd_f4cache (f : option F4Cache → option F4Cache) (st : Flow) : Flow :=
  mkFlow (target st) (cfg st) (os_map st) (dep_paths st) (run_stages st) (deps_rebuilds st) (f (f4cache st)) (stages_checked st) (skip_dep_warnings st) (value_overrides st) (drive st) (printed st) (executed st).

Definition upd_stages_checked (f : gset string → gset string) (st : Flow) : Flow :=
  mkFlow (target st) (cfg st) (os_map st) (dep_paths st) (run_stages st) (deps_rebuilds st) (f4cache st) (f (stages_checked st)) (skip_dep_warnings st) (value_overrides st) (drive st) (printed st) (executed st).

Definition upd_skip_dep_warnings (f : gset string → gset string) (st : Flow) : Flow :=
  mkFlow (target st) (cfg st) (os_map st) (dep_paths st) (run_stages st) (deps_rebuilds st) (f4cache st) (stages_checked st) (f (skip_dep_warnings st)) (value_overrides st) (drive st) (printed st) (executed st).

Definition upd_value_overrides (f : gmap string (gmap string pyval) → gmap string (gmap string pyval)) (st : Flow) : Flow :=
  mkFlow (target st) (cfg st) (os_map st) (dep_paths st) (run_stages st) (deps_rebuilds st) (f4cache st) (stages_checked st) (skip_dep_warnings st) (f (value_overrides st)) (drive st) (printed st) (executed st).

Definition upd_drive (f : Drive → Drive) (st : Flow) : Flow :=
  mkFlow (target st) (cfg st) (os_map st) (dep_paths st) (run_stages st) (deps_rebuilds st) (f4cache st) (stages_checked st) (skip_dep_warnings st) (value_overrides st) (f (drive st)) (printed st) (executed st).

Definition upd_printed (f : list (nat * message) → list (nat * message)) (st : Flow) : Flow :=
  mkFlow (target st) (cfg st) (os_map st) (dep_paths st) (run_stages st) (deps_rebuilds st) (f4cache st) (stages_checked st) (skip_dep_warnings st) (value_overrides st) (drive st) (f (printed st)) (executed st).

Definition upd_executed (f : list string → list string) (st : Flow) : Flow :=
  mkFlow (target st) (cfg st) (os_map st) (dep_paths st) (run_stages st) (deps_rebuilds st) (f4cache st) (stages_checked st) (skip_dep_warnings st) (value_overrides st) (drive st) (printed st) (f (executed st)).

(** ** Running a method

    A method of the flow either returns a value, raises, or (in the
    embedding only) exhausts the fuel that bounds its recursion; in each
    case it leaves a state behind, the one it had reached. *)

Inductive outcome (A : Type) : Type :=
| Returns (a : A) (st : Flow)
| Raises (e : error) (st : Flow)
| OutOfFuel (st : Flow).
Arguments Returns {A} a st.
Arguments Raises {A} e st.
Arguments OutOfFuel {A} st.

Definition action (A : Type) : Type := Flow → outcome A.

#[global] Instance action_ret : MRet action := fun A a st => Returns a st.

#[global] Instance action_bind : MBind action := fun A B k m st =>
  match m st with
  | Returns a st' => k a st'
  | Raises e st' => Raises e st'
  | OutOfFuel st' => OutOfFuel st'
  end.

Definition get : action Flow := fun st => Returns st st.

Definition modify (f : Flow → Flow) : action unit := fun st => Returns tt (f st).

Definition raise {A : Type} (e : error) : action A := fun st => Raises e st.

Definition lift {A : Type} (r : result A) : action A :=
  match r with
  | Ok a => mret a
  | Err e => raise e
  end.

(** [for x in l: body(x)] *)
Fixpoint for_each {A : Type} (body : A → action unit) (l : list A) : action unit :=
  match l with
  | [] => mret tt
  | x :: rest => body x;; for_each body rest
  end.

Definition sfprint (verbosity : nat) (m : message) : action unit :=
  modify (upd_printed (fun out => out ++ [(verbosity, m)])).

(** [d[k]] *)
Definition subscript (d : gmap string pyval) (k : string) : action pyval :=
  match d !! k with
  | Some v => mret v
  | None => raise (KeyError k)
  end.

Definition dep_value_str (dep : string) : string := String.append ":" dep.

(** [stage.value_overrides[key] = v] *)
Definition set_value_override (stage key : string) (v : pyval) : action unit :=
  modify (upd_value_overrides
            (fun vo => <[stage := <[key := v]> (default ∅ (vo !! stage))]> vo)).

(** Modelled from the spec: [cfg.get_r_env(stage).values] ([f4pga.flow_config]
    is not part of the sources): the configuration values a module sees
    are those the resolver wrote into the stage's value overrides. *)
Definition stage_values (st : Flow) (stage : string) : gmap string pyval :=
  default ∅ (value_overrides st !! stage).

(** ** Configuration of a module run *)

Definition prepare_stage_input (stage : Stage) (values dep_paths config_paths : gmap string pyval)
  : ModRunCtx :=
  let takes_cfg :=
    foldl (fun acc take =>
             let paths := dict_get dep_paths (io_name take) in
             if truthy paths then <[io_name take := paths]> acc else acc)
          ∅ (takes stage) in
  let produces_cfg :=
    foldl (fun acc prod =>
             if truthy (dict_get dep_paths (io_name prod))
             then <[io_name prod := dict_get dep_paths (io_name prod)]> acc
             else if truthy (dict_get config_paths (io_name prod))
             then <[io_name prod := dict_get config_paths (io_name prod)]> acc
             else acc)
          ∅ (produces stage) in
  mkModRunCtx takes_cfg produces_cfg values.

Definition config_mod_runctx (st : Flow) (stage : Stage) : ModRunCtx :=
  prepare_stage_input stage (stage_values st (name stage)) (dep_paths st)
                      (dict_of_items (dependency_overrides (cfg st))).

(** ** Planning: [Flow._resolve_dependencies] *)

Definition _dep_will_differ (st : Flow) (dep : string) (paths : pyval) (consumer : string)
  : bool :=
  match f4cache st with
  | None => true
  | Some cache =>
      dep_will_differ (drive st) dep paths consumer (os_map st) (run_stages st) cache
  end.

(** The verdict computed for one input at lines 322-329. *)
Definition will_differ (st : Flow) (provider : Stage) (take : IO) (take_paths : pyval)
  : result bool :=
  if is_none take_paths then Ok false
  else match req_exists (drive st) take_paths with
       | Err e => Err e
       | Ok true => Ok (_dep_will_differ st (io_name take) take_paths (name provider))
       | Ok false => Ok true
       end.

(** [self.deps_rebuilds[dep] += 1] *)
Definition count_rebuild (dep : string) : action unit := fun st =>
  match deps_rebuilds st !! dep with
  | Some n => Returns tt (upd_deps_rebuilds <[dep := S n]> st)
  | None => Raises (KeyError dep) st
  end.

(** What is done when an input will cause a rebuild (lines 332-338). *)
Definition cause_rebuild (provider : Stage) (take : IO) : action unit :=
  st ← get;
  (if bool_decide (io_name take ∈ skip_dep_warnings st) then mret tt
   else sfprint 2 (MsgCausingRebuild (io_name take) (name provider));;
        modify (upd_skip_dep_warnings (fun s => s ∪ {[io_name take]})));;
  modify (upd_run_stages (fun s => s ∪ {[name provider]}));;
  count_rebuild (io_name take).

(** The body of the loop over [provider.takes]; [false] is the [return]
    that abandons the stage. *)
Definition resolve_take (resolve : string → action unit) (provider : Stage) (take : IO)
  : action bool :=
  resolve (io_name take);;
  st ← get;
  let take_paths := dict_get (dep_paths st) (io_name take) in
  set_value_override (name provider) (dep_value_str (io_name take)) take_paths;;
  if negb (truthy take_paths) && bool_decide (spec take = "req") then
    sfprint 0 (MsgUnreachable (name provider) (io_name take));;
    mret false
  else
    st ← get;
    differ ← lift (will_differ st provider take take_paths);
    (if differ : bool then cause_rebuild provider take else mret tt);;
    mret true.

Fixpoint resolve_takes (resolve : string → action unit) (provider : Stage) (l : list IO)
  : action bool :=
  match l with
  | [] => mret true
  | take :: rest =>
      go_on ← resolve_take resolve provider take;
      if go_on : bool then resolve_takes resolve provider rest else mret false
  end.

(** Lines 345-348: predicted outputs that exist are registered with the
    cache. *)
Definition cache_output (output_paths : pyval) : action unit :=
  if is_none output_paths then mret tt
  else
    st ← get;
    there ← lift (req_exists (drive st) output_paths);
    match there, f4cache st with
    | true, Some cache =>
        modify (upd_f4cache (fun _ => Some (_cache_deps (drive st) output_paths cache)))
    | _, _ => mret tt
    end.

(** Lines 353-355: a predicted output that is missing puts the stage in
    the run set. *)
Definition mark_missing (provider : Stage) (out_paths : pyval) : action unit :=
  if is_none out_paths then mret tt
  else
    st ← get;
    there ← lift (req_exists (drive st) out_paths);
    if there : bool then mret tt
    else modify (upd_run_stages (fun s => s ∪ {[name provider]})).

(** [self.os_map.pop(o)] *)
Definition os_map_pop (output : string) : action unit := fun st =>
  match os_map st !! output with
  | Some _ => Returns tt (upd_os_map (delete output) st)
  | None => Raises (KeyError output) st
  end.

(** Lines 359-374: one declared output checked against the prediction. *)
Definition verify_output (provider : Stage) (outputs : gmap string pyval) (o : IO)
  : action unit :=
  st ← get;
  (if bool_decide (io_name o ∈ dom outputs) then mret tt
   else if bool_decide (spec o = "req")
           || (bool_decide (spec o = "demand")
               && bool_decide (io_name o ∈ dom (dict_of_items (dependency_overrides (cfg st)))))
        then raise (FatalNoMapping (name provider) (io_name o))
        else os_map_pop (io_name o));;
  let o_path := dict_get outputs (io_name o) in
  if is_none o_path then mret tt
  else set_value_override (name provider) (dep_value_str (io_name o)) o_path.

(** Lines 340-374: what follows the loop over the inputs. *)
Definition resolve_outputs (provider : Stage) : action unit :=
  st ← get;
  let outputs := module_map (module provider) (config_mod_runctx st provider) in
  for_each cache_output (map snd outputs);;
  modify (upd_stages_checked (fun s => s ∪ {[name provider]}));;
  modify (upd_dep_paths (fun d => dict_update d outputs));;
  for_each (mark_missing provider) (map snd outputs);;
  for_each (verify_output provider (dict_of_items outputs)) (produces provider).

Fixpoint _resolve_dependencies (fuel : nat) (dep : string) : action unit :=
  match fuel with
  | 0 => fun st => OutOfFuel st
  | S fuel' =>
      st ← get;
      (if bool_decide (is_Some (deps_rebuilds st !! dep)) then mret tt
       else modify (upd_deps_rebuilds <[dep := 0]>));;
      let paths := dict_get (dep_paths st) dep in
      if truthy paths && negb (bool_decide (is_Some (os_map st !! dep))) then mret tt
      else
        match os_map st !! dep with
        | None => mret tt
        | Some provider =>
            if bool_decide (name provider ∈ stages_checked st) then mret tt
            else
              go_on ← resolve_takes (_resolve_dependencies fuel') provider (takes provider);
              if go_on : bool then resolve_outputs provider else mret tt
        end
  end.

(** ** Execution: [Flow._build_dep] *)

(** [module_exec(provider.module, modrunctx)]: the call is recorded
    whether the module returns or raises. *)
Definition run_module (provider : Stage) : action unit := fun st =>
  let st' := upd_executed (fun l => l ++ [name provider]) st in
  match module_exec (module provider) (config_mod_runctx st provider) (drive st) with
  | Some fs => Returns tt (upd_drive (fun _ => fs) st')
  | None => Raises (ModuleFailure (name provider)) st'
  end.

(** The body of the loop over [provider.takes] (lines 424-432); it
    returns the new value of [any_dep_differ]. *)
Definition build_take (build : string → action bool) (provider : Stage)
    (any_dep_differ : bool) (p_dep : IO) : action bool :=
  built ← build (io_name p_dep);
  if negb built then
    if bool_decide (spec p_dep ≠ "req") then mret any_dep_differ
    else raise AssertionError
  else
    st ← get;
    match f4cache st with
    | Some cache =>
        paths ← subscript (dep_paths st) (io_name p_dep);
        verdict ← lift (update_dep_statuses (drive st) paths (name provider) cache);
        modify (upd_f4cache (fun _ => Some (snd verdict)));;
        mret (any_dep_differ || fst verdict)
    | None => mret any_dep_differ
    end.

Fixpoint build_takes (build : string → action bool) (provider : Stage)
    (any_dep_differ : bool) (l : list IO) : action bool :=
  match l with
  | [] => mret any_dep_differ
  | p_dep :: rest =>
      any_dep_differ' ← build_take build provider any_dep_differ p_dep;
      build_takes build provider any_dep_differ' rest
  end.

(** The body of the loop over [provider.produces] (lines 453-458);
    [paths] are the paths of the dependency being built. *)
Definition check_product (dep : string) (paths : pyval) (provider : Stage) (product : IO)
  : action unit :=
  st ← get;
  broken ← (if bool_decide (spec product = "req")
            then there ← lift (req_exists (drive st) paths); mret (negb there)
            else mret false);
  if broken : bool then raise (DependencyNotProducedException dep (name provider))
  else
    prod_paths ← subscript (dep_paths st) (io_name product);
    if is_none prod_paths then mret tt
    else
      there ← lift (req_exists (drive st) paths);
      match there, f4cache st with
      | true, Some cache =>
          modify (upd_f4cache (fun _ => Some (_cache_deps (drive st) prod_paths cache)))
      | _, _ => mret tt
      end.

(** Lines 423-458: the rebuild of [dep] by its provider. *)
Definition rebuild (build : string → action bool) (dep : string) (paths : pyval)
    (provider : Stage) : action bool :=
  st ← get;
  let any_dep_differ := match f4cache st with Some _ => false | None => true end in
  any_dep_differ ← build_takes build provider any_dep_differ (takes provider);
  st ← get;
  skip ← (if negb any_dep_differ then lift (req_exists (drive st) paths) else mret false);
  if skip : bool then
    sfprint 2 (MsgSkippingRebuild dep);;
    mret true
  else
    run_module provider;;
    modify (upd_run_stages (fun s => s ∖ {[name provider]}));;
    for_each (check_product dep paths provider) (produces provider);;
    mret true.

Fixpoint _build_dep (fuel : nat) (dep : string) : action bool :=
  match fuel with
  | 0 => fun st => OutOfFuel st
  | S fuel' =>
      st ← get;
      let paths := dict_get (dep_paths st) dep in
      let provider := os_map st !! dep in
      let run := match provider with
                 | Some p => bool_decide (name p ∈ run_stages st)
                 | None => false
                 end in
      if negb (truthy paths) then
        sfprint 2 (MsgUnresolved dep);;
        mret false
      else
        there ← lift (req_exists (drive st) paths);
        if there && negb run then mret true
        else match provider with
             | None => raise AssertionError
             | Some provider => rebuild (_build_dep fuel') dep paths provider
             end
  end.

(** [Flow.execute] *)
Definition execute (fuel : nat) : action unit :=
  st ← get;
  _build_dep fuel (target st);;
  st ← get;
  match f4cache st with
  | Some cache =>
      paths ← subscript (dep_paths st) (target st);
      let cache' := _cache_deps (drive st) paths cache in
      modify (upd_f4cache (fun _ => Some cache'));;
      verdict ← lift (update_dep_statuses (drive st) paths "__target" cache');
      modify (upd_f4cache (fun _ => Some (snd verdict)))
  | None => mret tt
  end;;
  st ← get;
  paths ← subscript (dep_paths st) (target st);
  sfprint 0 (MsgTarget (target st) paths).

(** ** Construction: [Flow.__init__] *)

(** [filter_existing_deps] *)
Fixpoint filter_existing_deps (fs : Drive) (deps : list (string * pyval))
  : result (list (string * pyval)) :=
  match deps with
  | [] => Ok []
  | (n, p) :: rest =>
      match req_exists fs p with
      | Err e => Err e
      | Ok there =>
          match filter_existing_deps fs rest with
          | Err e => Err e
          | Ok kept => Ok (if there then (n, p) :: kept else kept)
          end
      end
  end.

(** The object before [__init__] has run: nothing but the arguments, the
    value overrides of the configuration's stages and the drive. *)
Definition blank (target : string) (cfg : FlowConfig) (f4cache : option F4Cache)
    (value_overrides : gmap string (gmap string pyval)) (fs : Drive) : Flow :=
  mkFlow target cfg ∅ ∅ ∅ ∅ f4cache ∅ ∅ value_overrides fs [] [].

Definition Flow_init (fuel : nat) : action unit :=
  st ← get;
  os_map ← lift (map_outputs_to_stages (stages (cfg st)));
  modify (upd_os_map (fun _ => os_map));;
  explicit_deps ← lift (filter_existing_deps (drive st) (dependency_overrides (cfg st)));
  modify (upd_dep_paths (fun _ => dict_of_items explicit_deps));;
  match f4cache st with
  | Some cache =>
      modify (upd_f4cache (fun _ =>
        Some (fold_left (fun c dep => _cache_deps (drive st) dep c)
                        (map snd explicit_deps) cache)))
  | None => mret tt
  end;;
  modify (upd_run_stages (fun _ => ∅));;
  modify (upd_deps_rebuilds (fun _ => ∅));;
  modify (upd_stages_checked (fun _ => ∅));;
  modify (upd_skip_dep_warnings (fun _ => ∅));;
  _resolve_dependencies fuel (target st).

End Flow.

Arguments Returns {_ _} a st.
Arguments Raises {_ _} e st.
Arguments OutOfFuel {_ _} st.

(** * A concrete cache and concrete modules

    Used to run the flow on examples. *)

(** Modelled from the spec: the content-hash cache ([f4pga.cache] is not
    part of the sources).  It keeps, for a path and a consumer, the digest
    last recorded; the status of a pair is ['same'] when the path exists
    and its digest is the recorded one; [update] records the current
    digest and returns whether the pair differed before. *)
Definition hash_status (fs : Drive) (p consumer : string) (c : gmap (string * string) nat)
  : string :=
  match fs !! p, c !! (p, consumer) with
  | Some h, Some h' => if decide (h = h') then "same" else "changed"
  | _, _ => "untracked"
  end.

Definition hash_update (fs : Drive) (p consumer : string) (c : gmap (string * string) nat)
  : bool * gmap (string * string) nat :=
  (negb (bool_decide (hash_status fs p consumer c = "same")),
   match fs !! p with
   | Some h => <[(p, consumer) := h]> c
   | None => delete (p, consumer) c
   end).

(** A module given by a table: the outputs it predicts and the files it
    writes, with their digests, when executed. *)
Record TableModule : Type := mkTableModule {
  predicts : list (string * pyval);
  writes : list (string * nat)
}.

Fixpoint table_lookup (table : list (string * TableModule)) (m : string)
  : option TableModule :=
  match table with
  | [] => None
  | (m', tm) :: rest => if decide (m' = m) then Some tm else table_lookup rest m
  end.

(** A module that is not in the table predicts nothing and fails when
    executed. *)
Definition table_collaborators (table : list (string * TableModule)) : Collaborators := {|
  F4Cache := gmap (string * string) nat;
  cache_update := hash_update;
  cache_get_status := hash_status;
  cache_process_file := fun _ _ c => c;
  module_map := fun m _ =>
    match table_lookup table m with
    | Some tm => predicts tm
    | None => []
    end;
  module_exec := fun m _ fs =>
    match table_lookup table m with
    | Some tm => Some (foldl (fun fs w => <[fst w := snd w]> fs) fs (writes tm))
    | None => None
    end
|}.

(** [Flow(target, cfg, f4cache)] followed by [flow.execute()]. *)
Definition build `{Collaborators} (fuel : nat) : action unit :=
  Flow_init fuel;; execute fuel.

(** The state a run ends in. *)
Definition state_of `{Collaborators} {A : Type} (o : outcome A) : Flow :=
  match o with
  | Returns _ st => st
  | Raises _ st => st
  | OutOfFuel st => st
  end.

(** The state a run returns in. *)
Definition returned `{Collaborators} {A : Type} (o : outcome A) : option Flow :=
  match o with
  | Returns _ st => Some st
  | _ => None
  end.

(** * Properties *)

(** ** Existence checks *)

(** Structural induction on values, through lists and dictionaries. *)
Lemma pyval_nested_ind (P : pyval → Prop) :
  P PNone →
  (∀ s, P (PStr s)) →
  (∀ l, Forall P l → P (PList l)) →
  (∀ d, Forall (fun kv => P (snd kv)) d → P (PDict d)) →
  ∀ v, P v.
Proof.
  intros HN HS HL HD.
  fix IH 1. intros [ | s | l | d ].
  - exact HN.
  - apply HS.
  - apply HL. induction l as [ | x l IHl ]; constructor; [ apply IH | exact IHl ].
  - apply HD. induction d as [ | [k x] d IHd ]; constructor; [ apply IH | exact IHd ].
Qed.

(** Values built from strings and lists only. *)
Fixpoint plain (r : pyval) : bool :=
  match r with
  | PStr _ => true
  | PList l => forallb plain l
  | _ => false
  end.

(** Every path of a plain value is on the drive. *)
Fixpoint all_exist (fs : Drive) (r : pyval) : bool :=
  match r with
  | PStr s => path_exists fs s
  | PList l => forallb (all_exist fs) l
  | _ => false
  end.

Lemma req_exists_list (fs : Drive) (l : list pyval) :
  Forall (fun x => req_exists fs x = Ok (all_exist fs x)) l →
  req_exists fs (PList l) = Ok (forallb (all_exist fs) l).
Proof.
  intros Hl. simpl.
  induction Hl as [ | x l Hx Hl IH ]; simpl; [ done | ].
  rewrite Hx. destruct (all_exist fs x); simpl; [ | done ].
  exact IH.
Qed.

Lemma req_exists_plain (fs : Drive) (r : pyval) :
  plain r = true → req_exists fs r = Ok (all_exist fs r).
Proof.
  induction r as [ | s | l IH | d _ ] using pyval_nested_ind; try done.
  intros Hp. apply req_exists_list.
  simpl in Hp. rewrite forallb_forall in Hp.
  rewrite Forall_forall in IH |- *.
  intros x Hx. apply IH; [ done | ]. apply Hp. by apply list_elem_of_In.
Qed.

(** ** Ownership of outputs *)

Definition declares (s : Stage) (n : string) : Prop :=
  n ∈ io_name <$> produces s.

(** No output name is declared by two different stages of the list. *)
Definition single_provider (l : list Stage) : Prop :=
  ∀ s1 s2 n, s1 ∈ l → s2 ∈ l → declares s1 n → declares s2 n → s1 = s2.

(** The map holds exactly the declarations of the stages seen so far. *)
Definition owners_of (m : gmap string Stage) (seen : list Stage) : Prop :=
  ∀ n s, m !! n = Some s ↔ s ∈ seen ∧ declares s n.

Lemma register_outputs_cases (stage : Stage) (outs : list IO) (m : gmap string Stage) :
  match register_outputs stage m outs with
  | Ok m' =>
      (∀ o owner, o ∈ outs → m !! io_name o = Some owner → owner = stage) ∧
      (∀ n, n ∈ io_name <$> outs → m' !! n = Some stage) ∧
      (∀ n, n ∉ io_name <$> outs → m' !! n = m !! n)
  | Err e =>
      ∃ o owner, o ∈ outs ∧ m !! io_name o = Some owner ∧ owner ≠ stage ∧
                 e = MultipleProviders (io_name o) (name owner) (name stage)
  end.
Proof.
  revert m. induction outs as [ | o outs IH ]; intros m; simpl.
  { split; [ intros ? ? Hin; by apply elem_of_nil in Hin | ].
    split; [ intros ? Hin; by apply elem_of_nil in Hin | done ]. }
  assert (∀ m1 : gmap string Stage,
            m1 !! io_name o = Some stage →
            (∀ n, n ≠ io_name o → m1 !! n = m !! n) →
            (∀ owner, m !! io_name o = Some owner → owner = stage) →
            match register_outputs stage m1 outs with
            | Ok m' =>
                (∀ o' owner, o' ∈ o :: outs → m !! io_name o' = Some owner → owner = stage) ∧
                (∀ n, n ∈ io_name o :: (io_name <$> outs) → m' !! n = Some stage) ∧
                (∀ n, n ∉ io_name o :: (io_name <$> outs) → m' !! n = m !! n)
            | Err e =>
                ∃ o' owner, o' ∈ o :: outs ∧ m !! io_name o' = Some owner ∧ owner ≠ stage ∧
                            e = MultipleProviders (io_name o') (name owner) (name stage)
            end) as Hstep.
  { intros m1 Hhere Hother Hfree. specialize (IH m1).
    destruct (register_outputs stage m1 outs) as [ m' | e ].
    - destruct IH as (Hno & Hin' & Hout'). split; [ | split ].
      + intros o' owner Hin Hl. apply elem_of_cons in Hin as [ -> | Hin ]; [ by apply Hfree | ].
        destruct (decide (io_name o' = io_name o)) as [ Heq | Hneq ].
        * apply Hfree. by rewrite <- Heq.
        * eapply Hno; [ exact Hin | ]. by rewrite Hother.
      + intros n Hn. destruct (decide (n ∈ io_name <$> outs)) as [ Hn' | Hn' ].
        * by apply Hin'.
        * apply elem_of_cons in Hn as [ -> | Hn ]; [ | done ]. by rewrite Hout'.
      + intros n Hn. apply not_elem_of_cons in Hn as [Hne Hn].
        rewrite Hout' by done. by apply Hother.
    - destruct IH as (o' & owner & Hin & Hl & Hne & ->).
      exists o', owner. split; [ by apply elem_of_cons; right | ]. split; [ | done ].
      destruct (decide (io_name o' = io_name o)) as [ Heq | Hneq ].
      + rewrite Heq, Hhere in Hl. congruence.
      + by rewrite <- Hother. }
  unfold register_output.
  destruct (m !! io_name o) as [ owner | ] eqn:Ho.
  - destruct (decide (owner = stage)) as [ -> | Hne ].
    + apply Hstep; [ done | done | congruence ].
    + exists o, owner. split; [ by apply elem_of_cons; left | done ].
  - apply Hstep.
    + apply lookup_insert_eq.
    + intros n Hn. by rewrite lookup_insert_ne.
    + congruence.
Qed.

Lemma register_stages_cases (rest seen : list Stage) (m : gmap string Stage) :
  owners_of m seen →
  match register_stages m rest with
  | Ok m' => single_provider (seen ++ rest) ∧ owners_of m' (seen ++ rest)
  | Err e =>
      ∃ s1 s2 n, s1 ∈ seen ++ rest ∧ s2 ∈ seen ++ rest ∧ s1 ≠ s2 ∧
                 declares s1 n ∧ declares s2 n ∧
                 e = MultipleProviders n (name s1) (name s2)
  end.
Proof.
  revert seen m. induction rest as [ | s rest IH ]; intros seen m Hm; simpl.
  { rewrite app_nil_r. split; [ | done ].
    intros s1 s2 n H1 H2 D1 D2.
    assert (m !! n = Some s1) as E1 by (apply Hm; done).
    assert (m !! n = Some s2) as E2 by (apply Hm; done).
    congruence. }
  pose proof (register_outputs_cases s (produces s) m) as Hs.
  destruct (register_outputs s m (produces s)) as [ m1 | e ].
  - destruct Hs as (Hno & Hin1 & Hout1).
    assert (owners_of m1 (seen ++ [s])) as Hm1'.
    { intros n t. destruct (decide (n ∈ io_name <$> produces s)) as [ Hn | Hn ].
      - rewrite (Hin1 n Hn). split.
        + intros [= <-]. split; [ | done ]. apply elem_of_app. right. by apply list_elem_of_singleton.
        + intros [Hin Hd]. f_equal.
          apply elem_of_app in Hin as [ Hin | Hin ];
            [ | by apply list_elem_of_singleton in Hin ].
          apply list_elem_of_fmap in Hn as (o & -> & Ho).
          symmetry. eapply Hno; [ exact Ho | ]. apply Hm. done.
      - rewrite (Hout1 n Hn). unfold owners_of in Hm. rewrite (Hm n t). split.
        + intros [Hin Hd]. split; [ | done ]. apply elem_of_app. by left.
        + intros [Hin Hd]. split; [ | done ].
          apply elem_of_app in Hin as [ Hin | Hin ]; [ done | ].
          apply list_elem_of_singleton in Hin as ->. done. }
    specialize (IH (seen ++ [s]) m1 Hm1').
    rewrite <- app_assoc in IH. exact IH.
  - destruct Hs as (o & owner & Ho & Hl & Hne & ->).
    apply Hm in Hl as [Hin Hd].
    exists owner, s, (io_name o). repeat split; try done.
    + apply elem_of_app. by left.
    + apply elem_of_app. right. by apply elem_of_cons; left.
    + unfold declares. apply list_elem_of_fmap. eauto.
Qed.

Section Properties.

Context `{Collaborators}.

(** Unfolds the plumbing of [action]. *)
Ltac run :=
  unfold mbind, action_bind, mret, action_ret, get, modify, raise, lift, sfprint in *;
  simpl in *.

(** C8. Building the output-stage map from stages of which two different
    ones declare an output of the same name raises, and so does the
    construction of the flow, which starts with it; otherwise the map
    sends every declared output name to the stage declaring it, and holds
    nothing else (a stage may declare a name twice). *)
Theorem map_outputs_to_stages_single_provider (l : list Stage) :
  ((∃ s1 s2 n, s1 ∈ l ∧ s2 ∈ l ∧ s1 ≠ s2 ∧ declares s1 n ∧ declares s2 n) →
   ∃ n a b, map_outputs_to_stages l = Err (MultipleProviders n a b) ∧
            ∀ fuel st, stages (cfg st) = l →
                       Flow_init fuel st = Raises (MultipleProviders n a b) st) ∧
  (single_provider l →
   ∃ m, map_outputs_to_stages l = Ok m ∧
        (∀ s n, s ∈ l → declares s n → m !! n = Some s) ∧
        (∀ n s, m !! n = Some s → s ∈ l ∧ declares s n)).
Proof.
  pose proof (register_stages_cases l [] ∅) as Hc.
  unfold map_outputs_to_stages. simpl in Hc.
  assert (owners_of ∅ []) as H0.
  { intros n s. rewrite lookup_empty. split; [ done | ].
    intros [Hin _]. by apply elem_of_nil in Hin. }
  specialize (Hc H0).
  destruct (register_stages ∅ l) as [ m | e ] eqn:Hr.
  - destruct Hc as [Hsingle Hm]. split.
    + intros (s1 & s2 & n & H1 & H2 & Hne & D1 & D2).
      destruct Hne. by eapply Hsingle.
    + intros _. exists m. split; [ done | ]. split.
      * intros s n Hin Hd. by apply Hm.
      * intros n s Hl. by apply Hm.
  - destruct Hc as (s1 & s2 & n & H1 & H2 & Hne & D1 & D2 & ->). split.
    + intros _. exists n, (name s1), (name s2). split; [ done | ].
      intros fuel st <-. unfold Flow_init, map_outputs_to_stages. run.
      by rewrite Hr.
    + intros Hsingle. destruct Hne. by eapply Hsingle.
Qed.

(** C10. [req_exists] returns on strings (whether the path exists) and on
    lists of values built from strings and lists (the conjunction over the
    items, hence true on the empty list); on a dictionary and on [None] it
    raises.  So planning raises where it checks an input or a predicted
    output that is a dictionary, and building a dependency resolved to a
    (non-empty) dictionary raises. *)
Theorem req_exists_strings_and_lists_only (fs : Drive) :
  (∀ s, req_exists fs (PStr s) = Ok (path_exists fs s)) ∧
  (∀ l, forallb plain l = true →
        Forall (fun x => req_exists fs x = Ok (all_exist fs x)) l ∧
        req_exists fs (PList l) = Ok (forallb (all_exist fs) l)) ∧
  req_exists fs (PList []) = Ok true ∧
  (∀ d, req_exists fs (PDict d) = Err (RequirementsTypeError (PDict d))) ∧
  req_exists fs PNone = Err (RequirementsTypeError PNone) ∧
  (∀ st provider take d,
     will_differ st provider take (PDict d) = Err (RequirementsTypeError (PDict d))) ∧
  (∀ st provider d,
     cache_output (PDict d) st = Raises (RequirementsTypeError (PDict d)) st ∧
     mark_missing provider (PDict d) st = Raises (RequirementsTypeError (PDict d)) st) ∧
  (∀ fuel st dep d,
     dict_get (dep_paths st) dep = PDict d → d ≠ [] →
     _build_dep (S fuel) dep st = Raises (RequirementsTypeError (PDict d)) st).
Proof.
  split; [ done | ]. split; [ | repeat split; try done ].
  - intros l Hl. split.
    + apply Forall_forall. intros x Hx. apply req_exists_plain.
      rewrite forallb_forall in Hl. apply Hl. by apply list_elem_of_In.
    + apply (req_exists_plain fs (PList l)). done.
  - intros fuel st dep d Hd Hne. simpl. run. rewrite Hd. simpl.
    destruct d; [ done | ]. done.
Qed.

(** ** The verdict of planning on an input *)





(** ** What a method leaves unchanged *)

(** [leaves R m]: the state [m] ends in, returning or raising, is related
    by [R] to the state it started in. *)
Definition leaves {A : Type} (R : Flow → Flow → Prop) (m : action A) : Prop :=
  ∀ st, R st (state_of (m st)).

Section Leaves.

Context {R : Flow → Flow → Prop} `{!PreOrder R}.

Lemma leaves_ret {A : Type} (a : A) : leaves R (mret a).
Proof. intros st. simpl. reflexivity. Qed.

Lemma leaves_raise {A : Type} (e : error) : leaves R (raise (A:=A) e).
Proof. intros st. simpl. reflexivity. Qed.

Lemma leaves_get : leaves R get.
Proof. intros st. simpl. reflexivity. Qed.

Lemma leaves_lift {A : Type} (r : result A) : leaves R (lift r).
Proof. destruct r; [ apply leaves_ret | apply leaves_raise ]. Qed.

Lemma leaves_modify (f : Flow → Flow) : (∀ st, R st (f st)) → leaves R (modify f).
Proof. intros Hf st. simpl. apply Hf. Qed.

Lemma leaves_bind {A B : Type} (m : action A) (k : A → action B) :
  leaves R m → (∀ a, leaves R (k a)) → leaves R (m ≫= k).
Proof.
  intros Hm Hk st. specialize (Hm st).
  unfold mbind, action_bind. destruct (m st) as [ a st1 | e st1 | st1 ]; [ | done | done ].
  specialize (Hk a st1). by etrans.
Qed.

Lemma leaves_for_each {A : Type} (body : A → action unit) (l : list A) :
  (∀ x, leaves R (body x)) → leaves R (for_each body l).
Proof.
  intros Hbody. induction l as [ | x l IH ]; simpl.
  - apply leaves_ret.
  - apply leaves_bind; [ apply Hbody | intros _; apply IH ].
Qed.

Lemma leaves_subscript (d : gmap string pyval) (k : string) : leaves R (subscript d k).
Proof. unfold subscript. destruct (d !! k); [ apply leaves_ret | apply leaves_raise ]. Qed.

End Leaves.

(** One step of the decomposition of a method into its statements. *)
Ltac leaves_step :=
  lazymatch goal with
  | |- leaves _ (_ ≫= _) => apply leaves_bind; [ | intros ? ]
  | |- leaves _ (mret _) => apply leaves_ret
  | |- leaves _ (raise _) => apply leaves_raise
  | |- leaves _ get => apply leaves_get
  | |- leaves _ (lift _) => apply leaves_lift
  | |- leaves _ (subscript _ _) => apply leaves_subscript
  | |- leaves _ (for_each _ _) => apply leaves_for_each; intros ?
  | |- leaves _ (if ?b then _ else _) => destruct b
  | |- leaves _ (match ?x with _ => _ end) => destruct x
  end.

(** What planning leaves: the target, the configuration, the drive and
    the executions are as before; the output-stage map has lost entries
    at most; the run set, the counters and the checked stages have gained
    entries at most; a cache stays a cache. *)
Record planned (st st' : Flow) : Prop := {
  planned_target : target st' = target st;
  planned_cfg : cfg st' = cfg st;
  planned_drive : drive st' = drive st;
  planned_executed : executed st' = executed st;
  planned_os_map : os_map st' ⊆ os_map st;
  planned_run_stages : run_stages st ⊆ run_stages st';
  planned_deps_rebuilds : dom (deps_rebuilds st) ⊆ dom (deps_rebuilds st');
  planned_f4cache : is_Some (f4cache st') ↔ is_Some (f4cache st)
}.

#[local] Instance planned_preorder : PreOrder planned.
Proof.
  split.
  - intros st. by split.
  - intros st1 st2 st3 [] []. split; etrans; eassumption.
Qed.

(** Settles [planned] between a state and an update of some of its
    fields. *)
Ltac planned_fields :=
  split; simpl; try done;
  try (apply delete_subseteq);
  try (rewrite dom_insert_L);
  try set_solver.

Lemma planned_sfprint (v : nat) (m : message) : leaves planned (sfprint v m).
Proof. intros st. run. planned_fields. Qed.

Lemma planned_set_value_override (stage key : string) (v : pyval) :
  leaves planned (set_value_override stage key v).
Proof. intros st. unfold set_value_override. run. planned_fields. Qed.

Lemma planned_count_rebuild (dep : string) : leaves planned (count_rebuild dep).
Proof.
  intros st. unfold count_rebuild.
  destruct (deps_rebuilds st !! dep); [ planned_fields | reflexivity ].
Qed.

Lemma planned_cause_rebuild (provider : Stage) (take : IO) :
  leaves planned (cause_rebuild provider take).
Proof.
  unfold cause_rebuild. repeat leaves_step.
  - apply planned_sfprint.
  - apply leaves_modify. intros st. planned_fields.
  - apply leaves_modify. intros st. planned_fields.
  - apply planned_count_rebuild.
Qed.

Lemma planned_resolve_take (resolve : string → action unit) (provider : Stage) (take : IO) :
  (∀ dep, leaves planned (resolve dep)) →
  leaves planned (resolve_take resolve provider take).
Proof.
  intros Hres. unfold resolve_take. repeat leaves_step;
    auto using planned_sfprint, planned_set_value_override, planned_cause_rebuild.
Qed.

Lemma planned_resolve_takes (resolve : string → action unit) (provider : Stage)
    (l : list IO) :
  (∀ dep, leaves planned (resolve dep)) →
  leaves planned (resolve_takes resolve provider l).
Proof.
  intros Hres. induction l as [ | take l IH ]; simpl; repeat leaves_step;
    auto using planned_resolve_take.
Qed.

Lemma planned_cache_output (output_paths : pyval) : leaves planned (cache_output output_paths).
Proof.
  intros st. unfold cache_output.
  destruct (is_none output_paths); run; [ reflexivity | ].
  destruct (req_exists (drive st) output_paths) as [ [ | ] | e ]; simpl;
    destruct (f4cache st) eqn:Hc; simpl; try reflexivity.
  planned_fields.
Qed.

Lemma planned_mark_missing (provider : Stage) (out_paths : pyval) :
  leaves planned (mark_missing provider out_paths).
Proof.
  unfold mark_missing. repeat leaves_step.
  apply leaves_modify. intros st. planned_fields.
Qed.

Lemma planned_os_map_pop (output : string) : leaves planned (os_map_pop output).
Proof.
  intros st. unfold os_map_pop.
  destruct (os_map st !! output); [ planned_fields | reflexivity ].
Qed.

Lemma planned_verify_output (provider : Stage) (outputs : gmap string pyval) (o : IO) :
  leaves planned (verify_output provider outputs o).
Proof.
  unfold verify_output. repeat leaves_step;
    auto using planned_os_map_pop, planned_set_value_override.
Qed.

Lemma planned_resolve_outputs (provider : Stage) : leaves planned (resolve_outputs provider).
Proof.
  unfold resolve_outputs. repeat leaves_step;
    auto using planned_cache_output, planned_mark_missing, planned_verify_output.
  - apply leaves_modify. intros st. planned_fields.
  - apply leaves_modify. intros st. planned_fields.
Qed.

Lemma planned__resolve_dependencies (fuel : nat) (dep : string) :
  leaves planned (_resolve_dependencies fuel dep).
Proof.
  revert dep. induction fuel as [ | fuel IH ]; intros dep; [ done | ].
  simpl. repeat leaves_step;
    auto using planned_resolve_takes, planned_resolve_outputs.
  apply leaves_modify. intros st. planned_fields.
Qed.

(** ** The rebuild counters *)

Lemma bind_returns {A B : Type} (m : action A) (k : A → action B) (st st' : Flow) (b : B) :
  (m ≫= k) st = Returns b st' →
  ∃ a st1, m st = Returns a st1 ∧ k a st1 = Returns b st'.
Proof.
  unfold mbind, action_bind. destruct (m st) as [ a st1 | | ]; [ eauto | done | done ].
Qed.



(** What construction leaves. *)
Record kept (st st' : Flow) : Prop := {
  kept_target : target st' = target st;
  kept_cfg : cfg st' = cfg st;
  kept_drive : drive st' = drive st;
  kept_executed : executed st' = executed st;
  kept_f4cache : is_Some (f4cache st') ↔ is_Some (f4cache st)
}.

#[local] Instance kept_preorder : PreOrder kept.
Proof.
  split.
  - intros st. by split.
  - intros st1 st2 st3 [] []. split; etrans; eassumption.
Qed.

Lemma planned_kept (st st' : Flow) : planned st st' → kept st st'.
Proof. intros []. by split. Qed.

Lemma kept_Flow_init (fuel : nat) : leaves kept (Flow_init fuel).
Proof.
  intros st. unfold Flow_init. run.
  destruct (map_outputs_to_stages (stages (cfg st))) as [ om | e ]; simpl;
    [ | reflexivity ].
  destruct (filter_existing_deps (drive st) (dependency_overrides (cfg st)))
    as [ deps | e ]; simpl; [ | by split ].
  destruct (f4cache st) eqn:Hc; simpl;
    (etrans; [ | apply planned_kept, planned__resolve_dependencies ]);
    split; simpl; try done; by rewrite Hc.
Qed.

(** What execution leaves: everything planning resolved is as before; the
    run set has lost entries at most; the executions have been extended
    at most; a cache stays a cache. *)
Record built (st st' : Flow) : Prop := {
  built_target : target st' = target st;
  built_cfg : cfg st' = cfg st;
  built_os_map : os_map st' = os_map st;
  built_dep_paths : dep_paths st' = dep_paths st;
  built_run_stages : run_stages st' ⊆ run_stages st;
  built_deps_rebuilds : deps_rebuilds st' = deps_rebuilds st;
  built_value_overrides : value_overrides st' = value_overrides st;
  built_executed : executed st `prefix_of` executed st';
  built_f4cache : is_Some (f4cache st') ↔ is_Some (f4cache st)
}.

#[local] Instance built_preorder : PreOrder built.
Proof.
  split.
  - intros st. by split.
  - intros st1 st2 st3 [] []. split; etrans; eassumption.
Qed.

Ltac built_fields :=
  split; simpl; try done;
  try (by apply prefix_app_r);
  try set_solver.

Lemma built_sfprint (v : nat) (m : message) : leaves built (sfprint v m).
Proof. intros st. run. built_fields. Qed.

Lemma built_run_module (provider : Stage) : leaves built (run_module provider).
Proof.
  intros st. unfold run_module.
  destruct (module_exec (module provider) (config_mod_runctx st provider) (drive st));
    built_fields.
Qed.

Lemma built_build_take (build : string → action bool) (provider : Stage)
    (any_dep_differ : bool) (p_dep : IO) :
  (∀ dep, leaves built (build dep)) →
  leaves built (build_take build provider any_dep_differ p_dep).
Proof.
  intros Hb st. unfold build_take. run.
  specialize (Hb (io_name p_dep) st).
  destruct (build (io_name p_dep) st) as [ [ | ] st1 | e st1 | ]; simpl; try done.
  - destruct (f4cache st1) as [ cache | ] eqn:Hc; simpl; [ | done ].
    unfold subscript. destruct (dep_paths st1 !! io_name p_dep) as [ paths | ]; simpl;
      [ | done ].
    destruct (update_dep_statuses (drive st1) paths (name provider) cache); simpl;
      [ | done ].
    etrans; [ exact Hb | ]. built_fields.
  - by destruct (bool_decide (spec p_dep ≠ "req")).
Qed.

Lemma built_build_takes (build : string → action bool) (provider : Stage)
    (l : list IO) (any_dep_differ : bool) :
  (∀ dep, leaves built (build dep)) →
  leaves built (build_takes build provider any_dep_differ l).
Proof.
  intros Hb. revert any_dep_differ.
  induction l as [ | p_dep l IH ]; intros any_dep_differ; simpl; repeat leaves_step;
    auto using built_build_take.
Qed.

Lemma built_check_product (dep : string) (paths : pyval) (provider : Stage) (product : IO) :
  leaves built (check_product dep paths provider product).
Proof.
  intros st. unfold check_product, subscript. run.
  destruct (bool_decide (spec product = "req")); simpl;
    destruct (req_exists (drive st) paths) as [ [ | ] | e ]; simpl; try reflexivity;
    destruct (dep_paths st !! io_name product) as [ prod_paths | ]; simpl; try reflexivity;
    destruct (is_none prod_paths); simpl; try reflexivity;
    destruct (f4cache st) eqn:Hc; simpl; try reflexivity;
    built_fields.
Qed.

Lemma built_rebuild (build : string → action bool) (dep : string) (paths : pyval)
    (provider : Stage) :
  (∀ dep, leaves built (build dep)) →
  leaves built (rebuild build dep paths provider).
Proof.
  intros Hb. unfold rebuild. repeat leaves_step;
    auto using built_build_takes, built_sfprint, built_run_module, built_check_product.
  apply leaves_modify. intros st. built_fields.
Qed.

Lemma built__build_dep (fuel : nat) (dep : string) : leaves built (_build_dep fuel dep).
Proof.
  revert dep. induction fuel as [ | fuel IH ]; intros dep; [ done | ].
  simpl. repeat leaves_step; auto using built_sfprint, built_rebuild.
Qed.

(** ** Execution *)

(** C1. When a dependency is built whose provider is in the run set or
    whose path is not on the drive, and the loop over the provider's inputs
    ends with [any_dep_differ] false (no compared input differed) in a
    state where the dependency's path is on the drive, the build returns
    [True] without executing the provider's module: it only prints that
    the rebuild is skipped. *)
Theorem skip_rebuild (fuel : nat) (dep : string) (st st1 : Flow) (provider : Stage)
    (paths : pyval) (there : bool) :
  dict_get (dep_paths st) dep = paths →
  truthy paths = true →
  os_map st !! dep = Some provider →
  req_exists (drive st) paths = Ok there →
  name provider ∈ run_stages st ∨ there = false →
  build_takes (_build_dep fuel) provider
              (match f4cache st with Some _ => false | None => true end)
              (takes provider) st
  = Returns false st1 →
  req_exists (drive st1) paths = Ok true →
  ∃ st2, _build_dep (S fuel) dep st = Returns true st2 ∧
         executed st2 = executed st1 ∧
         drive st2 = drive st1 ∧
         printed st2 = printed st1 ++ [(2, MsgSkippingRebuild dep)].
Proof.
  intros Hpaths Htruthy Hprov Hthere Hrun Htakes Hthere1.
  exists (upd_printed (fun out => out ++ [(2, MsgSkippingRebuild dep)]) st1).
  split; [ | done ].
  simpl. run. rewrite Hpaths, Htruthy, Hprov, Hthere. simpl.
  assert (there && negb (bool_decide (name provider ∈ run_stages st)) = false) as ->.
  { destruct Hrun as [ Hin | -> ]; [ | done ].
    rewrite (bool_decide_eq_true_2 _ Hin). by destruct there. }
  unfold rebuild. run. rewrite Htakes. simpl. by rewrite Hthere1.
Qed.

(** ** The promise of a module *)






(** ** Without a cache *)

(** The executions are as they were. *)
Definition same_executed (st st' : Flow) : Prop := executed st' = executed st.

#[local] Instance same_executed_preorder : PreOrder same_executed.
Proof.
  split.
  - by intros st.
  - intros st1 st2 st3 H12 H23. unfold same_executed in *. congruence.
Qed.




(** ** A flow in which nothing has changed *)

(** The build of [dep] goes into the rebuild by [provider]: [dep] is
    resolved and its provider is in the run set. *)
Definition rebuilds (st : Flow) (dep : string) (provider : Stage) : Prop :=
  truthy (dict_get (dep_paths st) dep) = true ∧
  os_map st !! dep = Some provider ∧
  name provider ∈ run_stages st.

(** The dependencies the build of the target comes to, as long as it
    finds the paths on the drive: the target, and the inputs of the
    provider of a dependency it comes to and has to rebuild. *)
Inductive comes_to (st : Flow) : string → Prop :=
| comes_to_target : comes_to st (target st)
| comes_to_take (dep : string) (provider : Stage) (take : IO) :
    comes_to st dep → rebuilds st dep provider → take ∈ takes provider →
    comes_to st (io_name take).

(** Every resolved path the build comes to is on the drive. *)
Definition all_there (st : Flow) : Prop :=
  ∀ dep, comes_to st dep →
         truthy (dict_get (dep_paths st) dep) = true →
         req_exists (drive st) (dict_get (dep_paths st) dep) = Ok true.

(** For the caches of [I], the update of the statuses of every resolved
    input of every stage the build comes to rebuild reports no
    difference, and leaves a cache of [I]. *)
Definition quiet (I : F4Cache → Prop) (st : Flow) : Prop :=
  ∀ cache dep provider take paths,
    I cache → comes_to st dep → rebuilds st dep provider → take ∈ takes provider →
    dep_paths st !! io_name take = Some paths → truthy paths = true →
    ∃ cache', update_dep_statuses (drive st) paths (name provider) cache = Ok (false, cache') ∧
              I cache'.

(** The flow has a cache and, where its build comes to, every resolved
    path is on the drive and the update of any input compares as
    unchanged, now and from then on. *)
Definition settled (st : Flow) : Prop :=
  ∃ I : F4Cache → Prop,
    (∃ cache, f4cache st = Some cache ∧ I cache) ∧ quiet I st ∧ all_there st.









Lemma _build_dep_true_truthy (fuel : nat) (dep : string) (st st' : Flow) :
  _build_dep fuel dep st = Returns true st' →
  truthy (dict_get (dep_paths st) dep) = true.
Proof.
  destruct fuel as [ | fuel ]; [ done | ]. simpl. run.
  by destruct (truthy (dict_get (dep_paths st) dep)).
Qed.

Section Settled.

Context (I : F4Cache → Prop).



End Settled.


(** A flow with a cache whose plan has an empty run set and whose target
    is on the drive is settled: its build comes to the target only. *)
Lemma up_to_date_settled (st : Flow) :
  is_Some (f4cache st) →
  run_stages st = ∅ →
  (truthy (dict_get (dep_paths st) (target st)) = true →
   req_exists (drive st) (dict_get (dep_paths st) (target st)) = Ok true) →
  settled st.
Proof.
  intros [cache Hcache] Hrun Hthere.
  assert (∀ dep provider, ¬ rebuilds st dep provider) as Hnone.
  { intros dep provider (_ & _ & Hin). rewrite Hrun in Hin. by apply not_elem_of_empty in Hin. }
  assert (∀ dep, comes_to st dep → dep = target st) as Hcomes.
  { induction 1 as [ | dep provider take _ _ Hre _ ]; [ done | ]. by destruct (Hnone dep provider). }
  exists (fun _ => True). split; [ by exists cache | ]. split.
  - intros cache' dep provider take paths _ _ Hre. by destruct (Hnone dep provider).
  - intros dep Hcome. rewrite (Hcomes dep Hcome). done.
Qed.


(** ** Reading an outcome *)

(** The value a run returns. *)
Definition returned_value {A : Type} (o : outcome A) : option A :=
  match o with
  | Returns a _ => Some a
  | _ => None
  end.

Lemma returns_after {A : Type} (m : action A) (st : Flow) (a : A) :
  returned_value (m st) = Some a → m st = Returns a (state_of (m st)).
Proof. destruct (m st); simpl; congruence. Qed.

(** * Further properties of the flow *)

(** ** What planning and execution never do *)

Section Resolution_frame.

(** A relation that every elementary change made by planning respects is
    respected by the resolution of a dependency. *)
Context {R : Flow → Flow → Prop} `{!PreOrder R}.
Context (R_printed : ∀ x st, R st (upd_printed (fun out => out ++ [x]) st)).
Context (R_value_overrides : ∀ f st, R st (upd_value_overrides f st)).
Context (R_skip_dep_warnings : ∀ x st, R st (upd_skip_dep_warnings (fun s => s ∪ {[x]}) st)).
Context (R_run_stages : ∀ x st, R st (upd_run_stages (fun s => s ∪ {[x]}) st)).
Context (R_stages_checked : ∀ x st, R st (upd_stages_checked (fun s => s ∪ {[x]}) st)).
Context (R_count : ∀ dep n st, deps_rebuilds st !! dep = Some n →
                               R st (upd_deps_rebuilds <[dep := S n]> st)).
Context (R_init : ∀ dep st, deps_rebuilds st !! dep = None →
                            R st (upd_deps_rebuilds <[dep := 0]> st)).
Context (R_f4cache : ∀ cache st, is_Some (f4cache st) →
                                 R st (upd_f4cache (fun _ => Some cache) st)).
Context (R_dep_paths : ∀ m ctx st,
           R st (upd_dep_paths (fun d => dict_update d (module_map m ctx)) st)).
Context (R_os_map : ∀ o st, R st (upd_os_map (delete o) st)).

Lemma frame_cause_rebuild (provider : Stage) (take : IO) :
  leaves R (cause_rebuild provider take).
Proof.
  intros st. unfold cause_rebuild, count_rebuild. run.
  destruct (bool_decide (io_name take ∈ skip_dep_warnings st)); simpl;
    destruct (deps_rebuilds st !! io_name take) as [ n | ] eqn:Hn; simpl.
  - etrans; [ apply (R_run_stages (name provider)) | ]. by apply R_count.
  - apply R_run_stages.
  - etrans; [ apply (R_printed (2, MsgCausingRebuild (io_name take) (name provider))) | ].
    etrans; [ apply (R_skip_dep_warnings (io_name take)) | ].
    etrans; [ apply (R_run_stages (name provider)) | ]. by apply R_count.
  - etrans; [ apply (R_printed (2, MsgCausingRebuild (io_name take) (name provider))) | ].
    etrans; [ apply (R_skip_dep_warnings (io_name take)) | ].
    apply R_run_stages.
Qed.

Lemma frame_resolve_take (resolve : string → action unit) (provider : Stage) (take : IO) :
  (∀ dep, leaves R (resolve dep)) →
  leaves R (resolve_take resolve provider take).
Proof.
  intros Hres. unfold resolve_take, set_value_override, sfprint.
  repeat leaves_step; auto using frame_cause_rebuild, leaves_modify.
Qed.

Lemma frame_resolve_takes (resolve : string → action unit) (provider : Stage)
    (l : list IO) :
  (∀ dep, leaves R (resolve dep)) →
  leaves R (resolve_takes resolve provider l).
Proof.
  intros Hres. induction l as [ | take l IH ]; simpl; repeat leaves_step;
    auto using frame_resolve_take.
Qed.

Lemma frame_cache_output (output_paths : pyval) : leaves R (cache_output output_paths).
Proof.
  intros st. unfold cache_output.
  destruct (is_none output_paths); run; [ reflexivity | ].
  destruct (req_exists (drive st) output_paths) as [ [ | ] | e ]; simpl;
    destruct (f4cache st) eqn:Hc; simpl; try reflexivity.
  apply R_f4cache. by rewrite Hc.
Qed.

Lemma frame_resolve_outputs (provider : Stage) : leaves R (resolve_outputs provider).
Proof.
  intros st. unfold resolve_outputs.
  change (get ≫= ?k) with (fun st => k st st). cbv beta.
  unfold mark_missing, verify_output, os_map_pop, set_value_override.
  repeat (apply leaves_bind; [ | intros ? ]).
  - apply leaves_for_each. apply frame_cache_output.
  - apply leaves_modify. apply R_stages_checked.
  - apply leaves_modify. apply R_dep_paths.
  - apply leaves_for_each. intros out_paths. repeat leaves_step.
    apply leaves_modify. apply R_run_stages.
  - apply leaves_for_each. intros o.
    repeat leaves_step; auto using leaves_modify.
    intros st'. destruct (os_map st' !! io_name o); simpl; [ apply R_os_map | reflexivity ].
Qed.

Lemma frame__resolve_dependencies (fuel : nat) (dep : string) :
  leaves R (_resolve_dependencies fuel dep).
Proof.
  revert dep. induction fuel as [ | fuel IH ]; intros dep st; [ simpl; reflexivity | ].
  simpl. unfold mbind at 1, action_bind at 1, get. unfold mbind at 1, action_bind at 1.
  destruct (bool_decide (is_Some (deps_rebuilds st !! dep))) eqn:Hd; simpl.
  - match goal with
    | |- R st (state_of (?rest st)) => assert (leaves R rest) as Hrest
    end.
    { repeat leaves_step; auto using frame_resolve_takes, frame_resolve_outputs. }
    apply Hrest.
  - match goal with
    | |- R st (state_of (?rest ?st1)) => assert (leaves R rest) as Hrest
    end.
    { repeat leaves_step; auto using frame_resolve_takes, frame_resolve_outputs. }
    etrans; [ | apply Hrest ]. apply R_init.
    apply bool_decide_eq_false_1 in Hd. by apply eq_None_not_Some.
Qed.

End Resolution_frame.

(** What the resolution of a dependency changes, and in which direction. *)
Record resolving (st st' : Flow) : Prop := {
  resolving_target : target st' = target st;
  resolving_cfg : cfg st' = cfg st;
  resolving_drive : drive st' = drive st;
  resolving_executed : executed st' = executed st;
  resolving_os_map : os_map st' ⊆ os_map st;
  resolving_run_stages : run_stages st ⊆ run_stages st';
  resolving_stages_checked : stages_checked st ⊆ stages_checked st';
  resolving_skip_dep_warnings : skip_dep_warnings st ⊆ skip_dep_warnings st';
  resolving_deps_rebuilds :
    ∀ (dep : string) (n : nat),
      deps_rebuilds st !! dep = Some n →
      ∃ n' : nat, deps_rebuilds st' !! dep = Some n' ∧ (n ≤ n')%nat;
  resolving_printed : printed st `prefix_of` printed st'
}.

#[local] Instance resolving_preorder : PreOrder resolving.
Proof.
  split.
  - intros st. split; try done. eauto.
  - intros st1 st2 st3 [] []. split; try (etrans; eassumption).
    intros dep n Hn.
    destruct (resolving_deps_rebuilds0 dep n Hn) as (n' & Hn' & Hle).
    destruct (resolving_deps_rebuilds1 dep n' Hn') as (n'' & Hn'' & Hle').
    exists n''. split; [ done | lia ].
Qed.

Lemma resolving__resolve_dependencies (fuel : nat) (dep : string) :
  leaves resolving (_resolve_dependencies fuel dep).
Proof.
  apply frame__resolve_dependencies; try apply _.
  - intros x st. split; simpl; try done; eauto. by apply prefix_app_r.
  - intros f st. split; simpl; try done; eauto.
  - intros x st. split; simpl; try done; eauto. set_solver.
  - intros x st. split; simpl; try done; eauto. set_solver.
  - intros x st. split; simpl; try done; eauto. set_solver.
  - intros d n st Hn. split; simpl; try done.
    intros d' n' Hn'. destruct (decide (d = d')) as [ <- | Hne ].
    + rewrite lookup_insert_eq. exists (S n). split; [ done | ].
      rewrite Hn in Hn'. injection Hn' as <-. lia.
    + rewrite lookup_insert_ne by done. eauto.
  - intros d st Hn. split; simpl; try done.
    intros d' n' Hn'. destruct (decide (d = d')) as [ <- | Hne ].
    + congruence.
    + rewrite lookup_insert_ne by done. eauto.
  - intros cache st Hc. split; simpl; try done; eauto.
  - intros m ctx st. split; simpl; try done; eauto.
  - intros o st. split; simpl; try done; eauto. apply delete_subseteq.
Qed.

(** X1. The construction of a flow, planning included, executes no module
    and writes nothing to the drive, however far it gets and whether it
    returns or raises; a flow with a cache keeps one. *)
Theorem construction_executes_nothing (fuel : nat) (st : Flow) :
  executed (state_of (Flow_init fuel st)) = executed st ∧
  drive (state_of (Flow_init fuel st)) = drive st ∧
  target (state_of (Flow_init fuel st)) = target st ∧
  cfg (state_of (Flow_init fuel st)) = cfg st ∧
  (is_Some (f4cache (state_of (Flow_init fuel st))) ↔ is_Some (f4cache st)).
Proof. by destruct (kept_Flow_init fuel st). Qed.

(** X2. The resolution of a dependency only ever removes entries from
    the output-stage map, only ever adds stages to the run set and to the
    checked stages, never lowers a rebuild counter (nor drops one), and
    only ever adds to what was printed. *)
Theorem resolution_is_monotone (fuel : nat) (dep : string) (st : Flow) :
  os_map (state_of (_resolve_dependencies fuel dep st)) ⊆ os_map st ∧
  run_stages st ⊆ run_stages (state_of (_resolve_dependencies fuel dep st)) ∧
  stages_checked st ⊆ stages_checked (state_of (_resolve_dependencies fuel dep st)) ∧
  (∀ (d : string) (n : nat),
     deps_rebuilds st !! d = Some n →
     ∃ n' : nat,
       deps_rebuilds (state_of (_resolve_dependencies fuel dep st)) !! d = Some n'
       ∧ (n ≤ n')%nat) ∧
  printed st `prefix_of` printed (state_of (_resolve_dependencies fuel dep st)).
Proof. by destruct (resolving__resolve_dependencies fuel dep st). Qed.

Lemma dict_update_lookup_notin (items : list (string * pyval)) (d : gmap string pyval)
    (k : string) :
  k ∉ fst <$> items → dict_update d items !! k = d !! k.
Proof.
  revert d. induction items as [ | [k' v] items IH ]; intros d Hk; [ done | ].
  unfold dict_update in *. simpl. rewrite fmap_cons in Hk.
  apply not_elem_of_cons in Hk as [Hne Hk]. simpl in Hne.
  rewrite IH by done. by rewrite lookup_insert_ne.
Qed.

(** The resolved path of [k] is as before. *)
Definition same_path (k : string) (st st' : Flow) : Prop :=
  dep_paths st' !! k = dep_paths st !! k.

#[local] Instance same_path_preorder (k : string) : PreOrder (same_path k).
Proof.
  split.
  - by intros st.
  - intros st1 st2 st3 H12 H23. unfold same_path in *. congruence.
Qed.

(** X3. The resolution of a dependency leaves the resolved path of every
    name that no module predicts as it is: an explicit dependency is
    overwritten by a prediction of that name only. *)
Theorem unpredicted_path_kept (k : string) (fuel : nat) (dep : string) (st : Flow) :
  (∀ m ctx, k ∉ fst <$> module_map m ctx) →
  dep_paths (state_of (_resolve_dependencies fuel dep st)) !! k = dep_paths st !! k.
Proof.
  intros Hk.
  apply (frame__resolve_dependencies (R:=same_path k)); try done.
  intros m ctx st'. unfold same_path. simpl. by apply dict_update_lookup_notin.
Qed.

(** X4. The build of a dependency changes nothing of what planning
    resolved (the output-stage map, the resolved paths, the counters, the
    value overrides); it only ever removes stages from the run set and
    only ever adds to the executions. *)
Theorem build_keeps_the_plan (fuel : nat) (dep : string) (st : Flow) :
  os_map (state_of (_build_dep fuel dep st)) = os_map st ∧
  dep_paths (state_of (_build_dep fuel dep st)) = dep_paths st ∧
  deps_rebuilds (state_of (_build_dep fuel dep st)) = deps_rebuilds st ∧
  value_overrides (state_of (_build_dep fuel dep st)) = value_overrides st ∧
  run_stages (state_of (_build_dep fuel dep st)) ⊆ run_stages st ∧
  executed st `prefix_of` executed (state_of (_build_dep fuel dep st)).
Proof. by destruct (built__build_dep fuel dep st). Qed.

(** ** Path values and the oracle *)

(** The paths a value holds, in order. *)
Fixpoint paths_of (v : pyval) : list string :=
  match v with
  | PNone => []
  | PStr s => [s]
  | PList l => flat_map paths_of l
  | PDict d => flat_map (fun kv => paths_of (snd kv)) d
  end.

(** The path is on the drive and its status for the consumer is ['same']. *)
Definition unchanged (fs : Drive) (consumer : string) (cache : F4Cache) (p : string) : bool :=
  path_exists fs p && bool_decide (cache_get_status fs p consumer cache = "same").

Lemma dep_differ_existsb (fs : Drive) (consumer : string) (cache : F4Cache) (v : pyval) :
  dep_differ fs v consumer cache
  = existsb (fun p => negb (unchanged fs consumer cache p)) (paths_of v).
Proof.
  induction v as [ | s | l IH | d IH ] using pyval_nested_ind; simpl.
  - done.
  - unfold unchanged. destruct (path_exists fs s); simpl; [ | done ].
    by rewrite orb_false_r.
  - induction IH as [ | x l Hx _ IHl ]; simpl; [ done | ].
    by rewrite existsb_app, Hx, IHl.
  - induction IH as [ | [k x] d Hx _ IHd ]; simpl in *; [ done | ].
    by rewrite existsb_app, Hx, IHd.
Qed.

(** X5. [dep_differ] reports no difference exactly when every path of the
    value, at any depth of its lists and dictionaries, is on the drive
    and has the status ['same'] for the consumer; so a value without any
    path ([None], an empty list) never differs. *)
Theorem dep_differ_false_iff (fs : Drive) (consumer : string) (cache : F4Cache) (v : pyval) :
  dep_differ fs v consumer cache = false ↔
  ∀ p, p ∈ paths_of v →
       path_exists fs p = true ∧ cache_get_status fs p consumer cache = "same".
Proof.
  rewrite dep_differ_existsb. split.
  - intros Hno p Hp.
    assert (unchanged fs consumer cache p = true) as Hu.
    { destruct (unchanged fs consumer cache p) eqn:Hu; [ done | ].
      assert (existsb (fun p => negb (unchanged fs consumer cache p)) (paths_of v) = true)
        as Hyes; [ | congruence ].
      apply existsb_exists. exists p. split; [ by apply list_elem_of_In | by rewrite Hu ]. }
    unfold unchanged in Hu. apply andb_true_iff in Hu as [He Hs].
    split; [ done | by apply bool_decide_eq_true_1 in Hs ].
  - intros Hall.
    destruct (existsb (fun p => negb (unchanged fs consumer cache p)) (paths_of v)) eqn:Hex;
      [ | done ].
    apply existsb_exists in Hex as (p & Hp & Hu).
    destruct (Hall p) as [He Hs]; [ by apply list_elem_of_In | ].
    unfold unchanged in Hu. rewrite He, (bool_decide_eq_true_2 _ Hs) in Hu. done.
Qed.

(** X6. Whenever [req_exists] finds a value not to exist, [dep_differ]
    finds it to differ, whatever the cache says: the verdict planning
    gives an input that is missing from the drive is the one the oracle
    would have given. *)
Theorem missing_differs (fs : Drive) (consumer : string) (cache : F4Cache) (v : pyval) :
  req_exists fs v = Ok false → dep_differ fs v consumer cache = true.
Proof.
  induction v as [ | s | l IH | d IH ] using pyval_nested_ind; simpl; try done.
  - intros [= ->]. done.
  - induction IH as [ | x l Hx _ IHl ]; simpl; [ done | ].
    destruct (req_exists fs x) as [ [ | ] | e ] eqn:Hrx; [ | | done ].
    + intros Hrest. rewrite IHl; [ by rewrite orb_true_r | done ].
    + intros _. by rewrite Hx.
Qed.

(** ** The explicit dependencies *)

(** The value is found to exist. *)
Definition found (fs : Drive) (v : pyval) : bool :=
  match req_exists fs v with
  | Ok true => true
  | _ => false
  end.

(** X7. [filter_existing_deps] keeps, in order, exactly the dependencies
    found to exist, provided the existence of each can be checked; it
    raises what the check of the first uncheckable one raises. *)
Theorem filter_existing_deps_spec (fs : Drive) (deps : list (string * pyval)) :
  match filter_existing_deps fs deps with
  | Ok kept =>
      Forall (fun np => ∃ there, req_exists fs (snd np) = Ok there) deps ∧
      kept = List.filter (fun np => found fs (snd np)) deps ∧
      Forall (fun np => req_exists fs (snd np) = Ok true) kept
  | Err e =>
      ∃ before n p after,
        deps = before ++ (n, p) :: after ∧
        req_exists fs p = Err e ∧
        Forall (fun np => ∃ there, req_exists fs (snd np) = Ok there) before
  end.
Proof.
  induction deps as [ | [n p] deps IH ]; simpl.
  { by repeat split. }
  unfold found at 1. simpl.
  destruct (req_exists fs p) as [ there | e ] eqn:Hp.
  - destruct (filter_existing_deps fs deps) as [ kept | e ].
    + destruct IH as (Hall & -> & Hkept). split; [ | split ].
      * constructor; [ simpl; eauto | done ].
      * by destruct there.
      * destruct there; [ constructor | ]; done.
    + destruct IH as (before & n' & p' & after & -> & Hp' & Hbefore).
      exists ((n, p) :: before), n', p', after. split; [ done | ]. split; [ done | ].
      constructor; [ simpl; eauto | done ].
  - exists [], n, p, deps. by repeat split.
Qed.

(** ** The order of the stages *)

(** X8. The output-stage map does not depend on the order of the stages:
    two lists with the same stages give the same map, or both raise. *)
Theorem map_outputs_to_stages_permutation (l l' : list Stage) :
  l ≡ₚ l' →
  match map_outputs_to_stages l, map_outputs_to_stages l' with
  | Ok m, Ok m' => m = m'
  | Err _, Err _ => True
  | _, _ => False
  end.
Proof.
  intros Hperm. unfold map_outputs_to_stages.
  assert (owners_of ∅ []) as H0.
  { intros n s. rewrite lookup_empty. split; [ done | ].
    intros [Hin _]. by apply elem_of_nil in Hin. }
  pose proof (register_stages_cases l [] ∅ H0) as Hl.
  pose proof (register_stages_cases l' [] ∅ H0) as Hl'.
  simpl in Hl, Hl'.
  destruct (register_stages ∅ l) as [ m | e ], (register_stages ∅ l') as [ m' | e' ].
  - destruct Hl as [_ Hm], Hl' as [_ Hm']. apply map_eq. intros n.
    destruct (m !! n) as [ s | ] eqn:Hs.
    + symmetry. apply Hm'. apply Hm in Hs as [Hin Hd]. split; [ | done ].
      by rewrite <- Hperm.
    + destruct (m' !! n) as [ s | ] eqn:Hs'; [ | done ].
      apply Hm' in Hs' as [Hin Hd]. rewrite <- Hperm in Hin.
      assert (m !! n = Some s) by (by apply Hm). congruence.
  - destruct Hl as [Hsingle _], Hl' as (s1 & s2 & n & H1 & H2 & Hne & D1 & D2 & _).
    destruct Hne. eapply Hsingle; try done; by rewrite Hperm.
  - destruct Hl' as [Hsingle _], Hl as (s1 & s2 & n & H1 & H2 & Hne & D1 & D2 & _).
    destruct Hne. eapply Hsingle; try done; by rewrite <- Hperm.
  - done.
Qed.

(** ** The configuration handed to a module *)

Lemma prepare_takes_lookup (dp : gmap string pyval) (l : list IO)
    (acc : gmap string pyval) (k : string) :
  foldl (fun acc take =>
           let paths := dict_get dp (io_name take) in
           if truthy paths then <[io_name take := paths]> acc else acc) acc l !! k
  = if bool_decide (k ∈ io_name <$> l) && truthy (dict_get dp k)
    then Some (dict_get dp k) else acc !! k.
Proof.
  revert acc. induction l as [ | take l IH ]; intros acc; simpl.
  { done. }
  rewrite IH. change (list_fmap IO string io_name l) with (io_name <$> l).
  destruct (decide (k = io_name take)) as [ -> | Hne ].
  - rewrite (bool_decide_eq_true_2 (io_name take ∈ io_name take :: (io_name <$> l)))
      by (apply elem_of_cons; by left).
    simpl. destruct (truthy (dict_get dp (io_name take))) eqn:Ht.
    + by rewrite andb_true_r, lookup_insert_eq, Tauto.if_same.
    + by rewrite andb_false_r.
  - assert (bool_decide (k ∈ io_name take :: (io_name <$> l))
            = bool_decide (k ∈ io_name <$> l)) as ->.
    { apply bool_decide_ext. rewrite elem_of_cons. naive_solver. }
    destruct (bool_decide (k ∈ io_name <$> l) && truthy (dict_get dp k)); [ done | ].
    destruct (truthy (dict_get dp (io_name take))); [ | done ].
    by rewrite lookup_insert_ne.
Qed.

(** The path handed over for an output: the resolved one, else the
    explicit one. *)
Definition product_path (dp cp : gmap string pyval) (k : string) : option pyval :=
  if truthy (dict_get dp k) then Some (dict_get dp k)
  else if truthy (dict_get cp k) then Some (dict_get cp k)
  else None.

Lemma prepare_produces_lookup (dp cp : gmap string pyval) (l : list IO)
    (acc : gmap string pyval) (k : string) :
  foldl (fun acc prod =>
           if truthy (dict_get dp (io_name prod))
           then <[io_name prod := dict_get dp (io_name prod)]> acc
           else if truthy (dict_get cp (io_name prod))
           then <[io_name prod := dict_get cp (io_name prod)]> acc
           else acc) acc l !! k
  = if bool_decide (k ∈ io_name <$> l)
    then match product_path dp cp k with Some v => Some v | None => acc !! k end
    else acc !! k.
Proof.
  revert acc. induction l as [ | prod l IH ]; intros acc; simpl.
  { done. }
  rewrite IH. change (list_fmap IO string io_name l) with (io_name <$> l).
  unfold product_path.
  destruct (decide (k = io_name prod)) as [ -> | Hne ].
  - rewrite (bool_decide_eq_true_2 (io_name prod ∈ io_name prod :: (io_name <$> l)))
      by (apply elem_of_cons; by left).
    destruct (truthy (dict_get dp (io_name prod))) eqn:Hd.
    + by rewrite lookup_insert_eq, Tauto.if_same.
    + destruct (truthy (dict_get cp (io_name prod))) eqn:Hc.
      * by rewrite lookup_insert_eq, Tauto.if_same.
      * by rewrite Tauto.if_same.
  - assert (bool_decide (k ∈ io_name prod :: (io_name <$> l))
            = bool_decide (k ∈ io_name <$> l)) as ->.
    { apply bool_decide_ext. rewrite elem_of_cons. naive_solver. }
    destruct (bool_decide (k ∈ io_name <$> l)).
    + destruct (truthy (dict_get dp k)); [ done | ].
      destruct (truthy (dict_get cp k)); [ done | ].
      destruct (truthy (dict_get dp (io_name prod))); [ by rewrite lookup_insert_ne | ].
      destruct (truthy (dict_get cp (io_name prod))); [ by rewrite lookup_insert_ne | done ].
    + destruct (truthy (dict_get dp (io_name prod))); [ by rewrite lookup_insert_ne | ].
      destruct (truthy (dict_get cp (io_name prod))); [ by rewrite lookup_insert_ne | done ].
Qed.

(** X9. The configuration [prepare_stage_input] hands to a module holds,
    under the name of an input of the stage, the resolved path of that
    name when it is truthy, and nothing otherwise; under the name of an
    output, the resolved path when it is truthy, else the explicit path
    when that is truthy, and nothing otherwise.  So no entry is [None] or
    empty, and a resolved path takes precedence over an explicit one. *)
Theorem prepare_stage_input_lookup (stage : Stage) (values dp cp : gmap string pyval)
    (k : string) :
  cfg_takes (prepare_stage_input stage values dp cp) !! k
  = (if bool_decide (k ∈ io_name <$> takes stage) && truthy (dict_get dp k)
     then Some (dict_get dp k) else None) ∧
  cfg_produces (prepare_stage_input stage values dp cp) !! k
  = (if bool_decide (k ∈ io_name <$> produces stage) then product_path dp cp k else None) ∧
  (∀ v, cfg_takes (prepare_stage_input stage values dp cp) !! k = Some v ∨
        cfg_produces (prepare_stage_input stage values dp cp) !! k = Some v →
        truthy v = true).
Proof.
  unfold prepare_stage_input. simpl.
  rewrite prepare_takes_lookup, prepare_produces_lookup, lookup_empty.
  split; [ done | ]. split; [ by destruct (product_path dp cp k) | ].
  intros v [ Hv | Hv ].
  - destruct (bool_decide (k ∈ io_name <$> takes stage)); simpl in Hv; [ | done ].
    destruct (truthy (dict_get dp k)) eqn:Ht; [ | done ]. by injection Hv as <-.
  - destruct (bool_decide (k ∈ io_name <$> produces stage)); [ | done ].
    unfold product_path in Hv.
    destruct (truthy (dict_get dp k)) eqn:Hd; [ by injection Hv as <- | ].
    destruct (truthy (dict_get cp k)) eqn:Hc; [ by injection Hv as <- | done ].
Qed.

(** ** Which stages are executed *)

(** Every required input of the stage is resolved. *)
Definition runnable (st : Flow) (s : Stage) : Prop :=
  ∀ take, take ∈ takes s → spec take = "req" →
          truthy (dict_get (dep_paths st) (io_name take)) = true.

(** The name of a stage of the output-stage map whose required inputs
    are all resolved. *)
Definition may_run (st : Flow) (x : string) : Prop :=
  ∃ s d, os_map st !! d = Some s ∧ name s = x ∧ runnable st s.

(** The plan is as before and the executions added are of stages that
    may run. *)
Record careful (st st' : Flow) : Prop := {
  careful_os_map : os_map st' = os_map st;
  careful_dep_paths : dep_paths st' = dep_paths st;
  careful_executed : ∃ l, executed st' = executed st ++ l ∧ Forall (may_run st) l
}.

Lemma careful_same (st st' : Flow) :
  os_map st' = os_map st → dep_paths st' = dep_paths st → executed st' = executed st →
  careful st st'.
Proof.
  intros Hom Hdp Hex. split; [ done | done | ].
  exists []. by rewrite app_nil_r.
Qed.

#[local] Instance careful_preorder : PreOrder careful.
Proof.
  split.
  - intros st. by apply careful_same.
  - intros st1 st2 st3 [Hom Hdp (l & Hl & Hok)] [Hom' Hdp' (l' & Hl' & Hok')].
    split; [ congruence | congruence | ].
    exists (l ++ l'). split; [ by rewrite Hl', Hl, app_assoc | ].
    apply Forall_app. split; [ done | ].
    eapply Forall_impl; [ exact Hok' | ].
    intros x (s & d & Hs & Hx & Hr). exists s, d. split; [ congruence | ].
    split; [ done | ]. unfold runnable in *. by rewrite <- Hdp.
Qed.

Lemma careful_check_product (dep : string) (paths : pyval) (provider : Stage) (product : IO) :
  leaves careful (check_product dep paths provider product).
Proof.
  intros st. unfold check_product, subscript. run.
  destruct (bool_decide (spec product = "req")); simpl;
    destruct (req_exists (drive st) paths) as [ [ | ] | e ]; simpl; try reflexivity;
    destruct (dep_paths st !! io_name product) as [ prod_paths | ]; simpl; try reflexivity;
    destruct (is_none prod_paths); simpl; try reflexivity;
    destruct (f4cache st) eqn:Hc; simpl; try reflexivity;
    by apply careful_same.
Qed.

Section Careful_build.

Context (build : string → action bool).
Context (build_careful : ∀ dep, leaves careful (build dep)).
Context (build_true : ∀ dep st st', build dep st = Returns true st' →
                                    truthy (dict_get (dep_paths st) dep) = true).

Lemma careful_build_take (provider : Stage) (any_dep_differ : bool) (p_dep : IO) :
  leaves careful (build_take build provider any_dep_differ p_dep).
Proof.
  intros st. unfold build_take, subscript. run.
  pose proof (build_careful (io_name p_dep) st) as Hb.
  destruct (build (io_name p_dep) st) as [ [ | ] st1 | e st1 | st1 ]; simpl in *; try done.
  - destruct (f4cache st1) as [ cache | ]; simpl; [ | done ].
    destruct (dep_paths st1 !! io_name p_dep) as [ paths | ]; simpl; [ | done ].
    destruct (update_dep_statuses (drive st1) paths (name provider) cache); simpl;
      [ | done ].
    etrans; [ exact Hb | ]. by apply careful_same.
  - by destruct (bool_decide (spec p_dep ≠ "req")).
Qed.

Lemma careful_build_takes (provider : Stage) (l : list IO) (any_dep_differ : bool) :
  leaves careful (build_takes build provider any_dep_differ l).
Proof.
  revert any_dep_differ.
  induction l as [ | p_dep l IH ]; intros any_dep_differ; simpl; repeat leaves_step;
    auto using careful_build_take.
Qed.

(** The loop over the inputs ends only if every required input is
    resolved. *)
Lemma build_takes_required (provider : Stage) (l : list IO) (any_dep_differ any' : bool)
    (st st1 : Flow) :
  build_takes build provider any_dep_differ l st = Returns any' st1 →
  ∀ take, take ∈ l → spec take = "req" →
          truthy (dict_get (dep_paths st) (io_name take)) = true.
Proof.
  revert any_dep_differ st. induction l as [ | p_dep l IH ]; intros any_dep_differ st Hrun.
  { intros take Hin. by apply elem_of_nil in Hin. }
  simpl in Hrun. apply bind_returns in Hrun as (a & st2 & Htake & Hrest).
  pose proof (careful_build_take provider any_dep_differ p_dep st) as Hc.
  rewrite Htake in Hc. simpl in Hc.
  intros take Hin Hreq. apply elem_of_cons in Hin as [ -> | Hin ].
  - unfold build_take in Htake. run.
    pose proof (build_true (io_name p_dep) st) as Htrue.
    destruct (build (io_name p_dep) st) as [ [ | ] st3 | e st3 | st3 ]; simpl in *;
      try done.
    + by eapply Htrue.
    + rewrite bool_decide_eq_false_2 in Htake; [ done | ]. by intros Hne.
  - rewrite <- (careful_dep_paths _ _ Hc). by eapply IH.
Qed.

Lemma careful_rebuild (dep : string) (paths : pyval) (provider : Stage) (st : Flow) :
  os_map st !! dep = Some provider →
  careful st (state_of (rebuild build dep paths provider st)).
Proof.
  intros Hprov. unfold rebuild. run.
  pose proof (careful_build_takes provider (takes provider)
                (match f4cache st with Some _ => false | None => true end) st) as Hc.
  pose proof (build_takes_required provider (takes provider)
                (match f4cache st with Some _ => false | None => true end)) as Hreq.
  destruct (build_takes build provider
              (match f4cache st with Some _ => false | None => true end)
              (takes provider) st) as [ any_dep_differ st1 | e st1 | st1 ] eqn:Htakes;
    simpl in *; try done.
  specialize (Hreq any_dep_differ st st1 Htakes).
  assert (careful st1 (upd_drive (fun _ => drive st1)
                                 (upd_executed (fun l => l ++ [name provider]) st1)) ∧
          ∀ fs, careful st1 (upd_run_stages (fun s => s ∖ {[name provider]})
                               (upd_drive (fun _ => fs)
                                  (upd_executed (fun l => l ++ [name provider]) st1))))
    as [Hrun Hrun'].
  { assert (may_run st1 (name provider)) as Hmay.
    { exists provider, dep. rewrite (careful_os_map _ _ Hc). split; [ done | ].
      split; [ done | ]. intros take Hin Hspec.
      rewrite (careful_dep_paths _ _ Hc). by apply Hreq. }
    split; [ | intros fs ]; (split; [ done | done | ]);
      exists [name provider]; (split; [ done | by constructor ]). }
  assert (∀ st2, careful st1 st2 →
                 careful st (state_of
                   (match for_each (check_product dep paths provider) (produces provider) st2
                    with
                    | Returns _ st' => Returns true st'
                    | Raises e st' => Raises e st'
                    | OutOfFuel st' => OutOfFuel st'
                    end))) as Hchecks.
  { intros st2 Hst2.
    pose proof (leaves_for_each (R:=careful) (check_product dep paths provider)
                  (produces provider) (careful_check_product dep paths provider) st2) as Hf.
    destruct (for_each (check_product dep paths provider) (produces provider) st2);
      simpl in *; (etrans; [ exact Hc | ]; etrans; [ exact Hst2 | exact Hf ]). }
  destruct (negb any_dep_differ); simpl.
  - destruct (req_exists (drive st1) paths) as [ [ | ] | e ]; simpl.
    + etrans; [ exact Hc | ]. by apply careful_same.
    + unfold run_module.
      destruct (module_exec (module provider) (config_mod_runctx st1 provider) (drive st1));
        simpl; [ by apply Hchecks | by etrans ].
    + done.
  - unfold run_module.
    destruct (module_exec (module provider) (config_mod_runctx st1 provider) (drive st1));
      simpl; [ by apply Hchecks | by etrans ].
Qed.

End Careful_build.

Lemma careful__build_dep (fuel : nat) (dep : string) : leaves careful (_build_dep fuel dep).
Proof.
  revert dep. induction fuel as [ | fuel IH ]; intros dep st; [ simpl; reflexivity | ].
  simpl. run.
  destruct (truthy (dict_get (dep_paths st) dep)); simpl; [ | by apply careful_same ].
  destruct (req_exists (drive st) (dict_get (dep_paths st) dep)) as [ there | e ]; simpl;
    [ | reflexivity ].
  destruct (os_map st !! dep) as [ provider | ] eqn:Hprov; simpl.
  - destruct (there && negb (bool_decide (name provider ∈ run_stages st))); simpl;
      [ reflexivity | ].
    apply careful_rebuild; eauto using _build_dep_true_truthy.
  - destruct there; simpl; reflexivity.
Qed.

(** X10. Whatever [_build_dep] executes, and however far it gets, it
    executes none but stages of the output-stage map whose required
    inputs all have a resolved path: a stage with an unmet required input
    never has its module executed. *)
Theorem only_runnable_stages_executed (fuel : nat) (dep : string) (st : Flow) :
  ∃ l, executed (state_of (_build_dep fuel dep st)) = executed st ++ l ∧
       Forall (may_run st) l.
Proof. by destruct (careful__build_dep fuel dep st). Qed.

(** ** What a successful build guarantees *)

Lemma check_product_returns (dep : string) (paths : pyval) (provider : Stage) (product : IO)
    (st st' : Flow) :
  check_product dep paths provider product st = Returns tt st' →
  drive st' = drive st ∧
  (spec product = "req" → req_exists (drive st) paths = Ok true).
Proof.
  unfold check_product, subscript. run.
  destruct (bool_decide (spec product = "req")) eqn:Hreq; simpl.
  - destruct (req_exists (drive st) paths) as [ [ | ] | e ]; simpl; try done.
    destruct (dep_paths st !! io_name product) as [ prod_paths | ]; simpl; [ | done ].
    destruct (is_none prod_paths); simpl; [ by intros [= <-] | ].
    destruct (f4cache st); simpl; by intros [= <-].
  - apply bool_decide_eq_false_1 in Hreq.
    destruct (dep_paths st !! io_name product) as [ prod_paths | ]; simpl; [ | done ].
    destruct (is_none prod_paths); simpl; [ by intros [= <-] | ].
    destruct (req_exists (drive st) paths) as [ [ | ] | e ]; simpl; try done;
      destruct (f4cache st); simpl; by intros [= <-].
Qed.

Lemma check_products_return (dep : string) (paths : pyval) (provider : Stage) (l : list IO)
    (st st' : Flow) :
  for_each (check_product dep paths provider) l st = Returns tt st' →
  drive st' = drive st ∧
  ∀ o, o ∈ l → spec o = "req" → req_exists (drive st) paths = Ok true.
Proof.
  revert st. induction l as [ | o l IH ]; intros st; simpl.
  { run. intros [= <-]. split; [ done | ]. intros o Hin. by apply elem_of_nil in Hin. }
  intros Hrun. apply bind_returns in Hrun as ([] & st1 & Ho & Hrest).
  apply check_product_returns in Ho as [Hdrive Hreq].
  apply IH in Hrest as [Hdrive' Hrest]. split; [ congruence | ].
  intros o' Hin Hspec. apply elem_of_cons in Hin as [ -> | Hin ]; [ by apply Hreq | ].
  rewrite <- Hdrive. by eapply Hrest.
Qed.

(** X11. When the build of a dependency returns [True] and the provider
    of the dependency, if it has one, declares a required output, the
    path of the dependency is on the drive when the build returns,
    whether the dependency was up to date, its rebuild was skipped or its
    provider's module was executed. *)
Theorem built_dependency_exists (fuel : nat) (dep : string) (st st' : Flow) :
  _build_dep fuel dep st = Returns true st' →
  (∀ provider, os_map st !! dep = Some provider →
               ∃ o, o ∈ produces provider ∧ spec o = "req") →
  req_exists (drive st') (dict_get (dep_paths st) dep) = Ok true.
Proof.
  destruct fuel as [ | fuel ]; [ done | ]. simpl. run.
  destruct (truthy (dict_get (dep_paths st) dep)); simpl; [ | done ].
  destruct (req_exists (drive st) (dict_get (dep_paths st) dep)) as [ there | e ] eqn:Hthere;
    simpl; [ | done ].
  destruct (os_map st !! dep) as [ provider | ] eqn:Hprov; simpl.
  - destruct (there && negb (bool_decide (name provider ∈ run_stages st))) eqn:Hup; simpl.
    { intros [= <-] _. apply andb_true_iff in Hup as [-> _]. done. }
    intros Hrun Hreq. destruct (Hreq provider eq_refl) as (o & Ho & Hspec).
    unfold rebuild in Hrun. run.
    destruct (build_takes (_build_dep fuel) provider
                (match f4cache st with Some _ => false | None => true end)
                (takes provider) st) as [ any_dep_differ st1 | | ]; simpl in *; try done.
    assert (∀ st2,
              match for_each (check_product dep (dict_get (dep_paths st) dep) provider)
                             (produces provider) st2 with
              | Returns _ st3 => Returns true st3
              | Raises e st3 => Raises e st3
              | OutOfFuel st3 => OutOfFuel st3
              end = Returns true st' →
              req_exists (drive st') (dict_get (dep_paths st) dep) = Ok true) as Hchecks.
    { intros st2 Hc.
      destruct (for_each (check_product dep (dict_get (dep_paths st) dep) provider)
                         (produces provider) st2) as [ [] st3 | | ] eqn:Hfor; try done.
      injection Hc as <-.
      apply check_products_return in Hfor as [Hdrive Hall].
      rewrite Hdrive. by eapply Hall. }
    unfold run_module in Hrun.
    destruct (negb any_dep_differ); simpl in Hrun.
    + destruct (req_exists (drive st1) (dict_get (dep_paths st) dep)) as [ [ | ] | e ]
        eqn:Hthere1; simpl in Hrun; try done.
      * by injection Hrun as <-.
      * destruct (module_exec (module provider) (config_mod_runctx st1 provider) (drive st1));
          simpl in Hrun; [ by eapply Hchecks | done ].
    + destruct (module_exec (module provider) (config_mod_runctx st1 provider) (drive st1));
        simpl in Hrun; [ by eapply Hchecks | done ].
  - destruct there; simpl; [ | done ]. by intros [= <-] _.
Qed.

(** X12. [execute] on a flow whose target has no entry among the resolved
    paths prints that the target is unresolved and then raises
    [KeyError] for the target, with or without a cache, without executing
    anything. *)
Theorem execute_unresolved_target (fuel : nat) (st : Flow) :
  dep_paths st !! target st = None →
  ∃ st', execute (S fuel) st = Raises (KeyError (target st)) st' ∧
         printed st' = printed st ++ [(2, MsgUnresolved (target st))] ∧
         executed st' = executed st.
Proof.
  intros Hnone. unfold execute, subscript. simpl. run.
  unfold dict_get. rewrite Hnone. simpl.
  destruct (f4cache st); simpl; rewrite Hnone; simpl; eauto.
Qed.

End Properties.

(** * Splitting inout ports ([f4pga/utils/yosys_split_inouts.py]) *)

Module SplitInouts.

Local Open Scope Z_scope.

(** A bit of a port or of a connection in the JSON design of Yosys: the
    index of a net, or a constant (["0"], ["1"], ["x"]). *)
Inductive bit : Type :=
| Net (n : Z)
| Const (c : string).

(** [get_nets]: the net indices among the bits. *)
Definition get_nets (bits : list bit) : gset Z :=
  list_to_set (omap (fun b => match b with Net n => Some n | Const _ => None end) bits).

(** The loop of [get_free_net] over the pairs of neighbours of the sorted
    list: the index after the first net whose successor is not the next
    net. *)
Fixpoint first_gap (sorted_nets : list Z) : option Z :=
  match sorted_nets with
  | n0 :: (n1 :: _) as rest =>
      if decide (n1 ≠ n0 + 1) then Some (n0 + 1) else first_gap rest
  | _ => None
  end.

(** [get_free_net]; [None] is the [IndexError] that [sorted_nets[-1]]
    raises on an empty list. *)
Definition get_free_net (nets : gset Z) : option Z :=
  let sorted_nets := merge_sort Z.le (elements nets) in
  match first_gap sorted_nets with
  | Some n => Some n
  | None => (fun m => m + 1) <$> last sorted_nets
  end.

(** The loop over the bits of an inout port, for one direction (lines
    182-194 of [main]): every net gets a free index, recorded in the net
    map under the first letter of the direction and added to the nets in
    use; constants are copied.  [None] is the [IndexError] of
    [get_free_net]. *)
Fixpoint split_bits (d : string) (bits : list bit) (nets : gset Z)
    (net_map : gmap Z (gmap string Z))
  : option (list bit * gset Z * gmap Z (gmap string Z)) :=
  match bits with
  | [] => Some ([], nets, net_map)
  | Net n :: rest =>
      match get_free_net nets with
      | None => None
      | Some mapped_n =>
          let net_map' := <[n := <[d := mapped_n]> (default ∅ (net_map !! n))]> net_map in
          match split_bits d rest ({[mapped_n]} ∪ nets) net_map' with
          | None => None
          | Some (new_bits, nets', net_map'') => Some (Net mapped_n :: new_bits, nets', net_map'')
          end
      end
  | Const c :: rest =>
      match split_bits d rest nets net_map with
      | None => None
      | Some (new_bits, nets', net_map') => Some (Const c :: new_bits, nets', net_map')
      end
  end.

Lemma elem_of_get_nets (bits : list bit) (n : Z) : n ∈ get_nets bits ↔ Net n ∈ bits.
Proof.
  unfold get_nets. rewrite elem_of_list_to_set, list_elem_of_omap. split.
  - intros ([ m | c ] & Hin & Heq); [ | done ]. by injection Heq as ->.
  - intros Hin. exists (Net n). done.
Qed.

(** On a strictly increasing list that starts with [a], the index found
    is the first one above [a] that is not in the list. *)
Lemma first_gap_spec (s : list Z) (a : Z) :
  StronglySorted Z.le (a :: s) → NoDup (a :: s) →
  ∃ n, (match first_gap (a :: s) with
        | Some n => Some n
        | None => (fun m => m + 1) <$> last (a :: s)
        end) = Some n ∧
       (n ∉ a :: s) ∧ ((n - 1) ∈ a :: s) ∧ a < n ∧ ∀ j, a ≤ j → j < n → j ∈ a :: s.
Proof.
  revert a. induction s as [ | b s IH ]; intros a Hsorted Hnodup.
  { exists (a + 1). simpl. split; [ done | ]. split; [ | split; [ | split ] ].
    - rewrite list_elem_of_singleton. lia.
    - apply list_elem_of_singleton. lia.
    - lia.
    - intros j Hj Hj'. apply list_elem_of_singleton. lia. }
  apply StronglySorted_inv in Hsorted as [Hsorted Hle].
  apply NoDup_cons in Hnodup as [Hfresh Hnodup].
  assert (a < b) as Hab.
  { apply Forall_cons in Hle as [Hle _].
    assert (a ≠ b) by (intros ->; apply Hfresh; by apply elem_of_cons; left). lia. }
  assert (∀ x, x ∈ b :: s → b ≤ x) as Hb.
  { intros x Hx. apply elem_of_cons in Hx as [ -> | Hx ]; [ lia | ].
    apply StronglySorted_inv in Hsorted as [_ Hble].
    rewrite Forall_forall in Hble. by apply Hble. }
  simpl. destruct (decide (b ≠ a + 1)) as [ Hgap | Hnext ].
  - exists (a + 1). split; [ done | ]. split; [ | split; [ | split ] ].
    + intros Hin. apply elem_of_cons in Hin as [ Heq | Hin ]; [ lia | ].
      apply Hb in Hin. lia.
    + apply elem_of_cons. left. lia.
    + lia.
    + intros j Hj Hj'. apply elem_of_cons. left. lia.
  - assert (b = a + 1) as Hba by (destruct (decide (b = a + 1)); [ done | by destruct Hnext ]).
    destruct (IH b Hsorted Hnodup) as (n & Hn & Hnotin & Hpred & Hlt & Hrun).
    exists n. split; [ | split; [ | split; [ | split ] ] ].
    + rewrite <- Hn. simpl. by destruct s.
    + intros Hin. apply elem_of_cons in Hin as [ Heq | Hin ]; [ lia | done ].
    + by apply elem_of_cons; right.
    + lia.
    + intros j Hj Hj'. destruct (decide (j = a)) as [ -> | Hne ].
      * by apply elem_of_cons; left.
      * apply elem_of_cons. right. apply Hrun; lia.
Qed.

Lemma get_free_net_fresh_aux (nets : gset Z) :
  (nets = ∅ → get_free_net nets = None) ∧
  (nets ≠ ∅ →
   ∃ n, get_free_net nets = Some n ∧ (n ∉ nets) ∧ ((n - 1) ∈ nets) ∧
        ∀ k j, k ∈ nets → k ≤ j → j < n → j ∈ nets).
Proof.
  unfold get_free_net.
  pose proof (merge_sort_Permutation Z.le (elements nets)) as Hperm.
  pose proof (StronglySorted_merge_sort Z.le (elements nets)) as Hsorted.
  assert (NoDup (merge_sort Z.le (elements nets))) as Hnodup.
  { rewrite Hperm. apply NoDup_elements. }
  assert (∀ x, x ∈ merge_sort Z.le (elements nets) ↔ x ∈ nets) as Hin.
  { intros x. rewrite Hperm. apply elem_of_elements. }
  destruct (merge_sort Z.le (elements nets)) as [ | a s ] eqn:Hs.
  - split; [ done | ]. intros Hne. destruct Hne. apply set_eq. intros x.
    rewrite <- Hin. split; [ intros Hx; by apply elem_of_nil in Hx | set_solver ].
  - split.
    { intros ->. specialize (Hin a). rewrite elem_of_empty in Hin.
      destruct Hin as [Hin _]. destruct Hin. by apply elem_of_cons; left. }
    intros _.
    destruct (first_gap_spec s a Hsorted Hnodup) as (n & Hn & Hnotin & Hpred & Hlt & Hrun).
    exists n. split; [ done | ]. split; [ by rewrite <- Hin | ].
    split; [ by rewrite <- Hin | ].
    intros k j Hk Hj Hj'. apply Hin. apply Hrun; [ | done ].
    apply Hin in Hk. apply elem_of_cons in Hk as [ -> | Hk ]; [ lia | ].
    apply StronglySorted_inv in Hsorted as [_ Hle].
    rewrite Forall_forall in Hle. specialize (Hle k Hk). lia.
Qed.

(** X13. On an empty set of nets [get_free_net] fails (with Python's
    [IndexError]).  On any other set it returns an index that is not in
    the set and follows one that is: the first unused index above the
    smallest net in use, so that every index between a net in use below
    the result and the result is in use too. *)
Theorem get_free_net_fresh (nets : gset Z) :
  (nets = ∅ → get_free_net nets = None) ∧
  (nets ≠ ∅ →
   ∃ n, get_free_net nets = Some n ∧ (n ∉ nets) ∧ ((n - 1) ∈ nets) ∧
        ∀ k j, k ∈ nets → k ≤ j → j < n → j ∈ nets).
Proof. apply get_free_net_fresh_aux. Qed.

#[global] Instance bit_eq_dec : EqDecision bit.
Proof. solve_decision. Defined.

(** The net indices among the bits, in order and with repetitions. *)
Definition nets_of (bits : list bit) : list Z :=
  omap (fun b => match b with Net n => Some n | Const _ => None end) bits.

(** The new bit is the same constant, or a net for a net. *)
Definition shaped (old new : bit) : Prop :=
  match old with
  | Const c => new = Const c
  | Net _ => ∃ m, new = Net m
  end.

Lemma get_free_net_cases (nets : gset Z) :
  match get_free_net nets with
  | None => nets = ∅
  | Some n => nets ≠ ∅ ∧ n ∉ nets
  end.
Proof.
  destruct (get_free_net_fresh_aux nets) as [Hempty Hfresh].
  destruct (decide (nets = ∅)) as [ -> | Hne ].
  - by rewrite Hempty.
  - destruct (Hfresh Hne) as (n & -> & Hn & _). done.
Qed.

Lemma elem_of_nets_of (bits : list bit) (n : Z) : n ∈ nets_of bits ↔ Net n ∈ bits.
Proof.
  unfold nets_of. rewrite list_elem_of_omap. split.
  - intros ([ m | c ] & Hin & Heq); [ | done ]. by injection Heq as ->.
  - intros Hin. exists (Net n). done.
Qed.

Lemma split_bits_cases (d : string) (bits : list bit) (nets : gset Z)
    (net_map : gmap Z (gmap string Z)) :
  match split_bits d bits nets net_map with
  | None => nets = ∅ ∧ ∃ n, Net n ∈ bits
  | Some (new_bits, nets', net_map') =>
      (nets = ∅ → ∀ n, Net n ∉ bits) ∧
      Forall2 shaped bits new_bits ∧
      NoDup (nets_of new_bits) ∧
      (∀ n, n ∈ nets_of new_bits → n ∉ nets) ∧
      nets' = nets ∪ get_nets new_bits ∧
      (∀ n, Net n ∈ bits → ∃ m, net_map' !! n ≫= (fun ds => ds !! d) = Some m ∧
                                Net m ∈ new_bits) ∧
      (∀ n, Net n ∉ bits → net_map' !! n = net_map !! n)
  end.
Proof.
  revert nets net_map. induction bits as [ | [ n | c ] bits IH ]; intros nets net_map; simpl.
  - split; [ intros _ n Hin; by apply elem_of_nil in Hin | ].
    split; [ constructor | ]. split; [ constructor | ].
    split; [ intros n Hin; by apply elem_of_nil in Hin | ].
    split; [ unfold get_nets; simpl; set_solver | ].
    split; [ intros n Hin; by apply elem_of_nil in Hin | done ].
  - pose proof (get_free_net_cases nets) as Hfree.
    destruct (get_free_net nets) as [ m | ].
    2: { split; [ done | ]. exists n. by apply elem_of_cons; left. }
    destruct Hfree as [Hne Hm].
    specialize (IH ({[m]} ∪ nets)
                   (<[n := <[d := m]> (default ∅ (net_map !! n))]> net_map)).
    destruct (split_bits d bits ({[m]} ∪ nets)
                (<[n := <[d := m]> (default ∅ (net_map !! n))]> net_map))
      as [ [ [new_bits nets'] net_map'] | ].
    2: { destruct IH as [Hempty _]. set_solver. }
    destruct IH as (_ & Hshape & Hnodup & Hfresh & -> & Hmap & Hkeep).
    split; [ done | ].
    split; [ constructor; [ by exists m | done ] | ].
    split.
    { simpl. apply NoDup_cons. split; [ | done ].
      intros Hin. apply Hfresh in Hin. set_solver. }
    split.
    { simpl. intros k Hk. apply elem_of_cons in Hk as [ -> | Hk ]; [ done | ].
      apply Hfresh in Hk. set_solver. }
    split.
    { apply set_eq. intros k. rewrite !elem_of_union, !elem_of_get_nets, elem_of_singleton.
      rewrite elem_of_cons. split; [ | naive_solver ].
      intros [ [ -> | Hk ] | Hk ]; [ right; by left | by left | right; by right ]. }
    split.
    { intros k Hk. destruct (decide (Net k ∈ bits)) as [ Hin | Hnotin ].
      - destruct (Hmap k Hin) as (m' & Hm' & Hin'). exists m'. split; [ done | ].
        by apply elem_of_cons; right.
      - apply elem_of_cons in Hk as [ [= ->] | Hk ]; [ | done ].
        exists m. rewrite (Hkeep n Hnotin), lookup_insert_eq. simpl.
        rewrite lookup_insert_eq. split; [ done | by apply elem_of_cons; left ]. }
    intros k Hk. apply not_elem_of_cons in Hk as [Hne' Hk].
    rewrite (Hkeep k Hk). rewrite lookup_insert_ne; [ done | congruence ].
  - specialize (IH nets net_map).
    destruct (split_bits d bits nets net_map) as [ [ [new_bits nets'] net_map'] | ].
    2: { destruct IH as [Hempty (n & Hn)]. split; [ done | ].
         exists n. by apply elem_of_cons; right. }
    destruct IH as (Hempty & Hshape & Hnodup & Hfresh & -> & Hmap & Hkeep).
    split.
    { intros He n Hin. apply elem_of_cons in Hin as [ [=] | Hin ]. by eapply Hempty. }
    split; [ by constructor | ]. split; [ done | ]. split; [ done | ].
    split.
    { apply set_eq. intros k. rewrite !elem_of_union, !elem_of_get_nets, elem_of_cons.
      naive_solver. }
    split.
    { intros k Hk. apply elem_of_cons in Hk as [ [=] | Hk ].
      destruct (Hmap k Hk) as (m' & Hm' & Hin'). exists m'. split; [ done | ].
      by apply elem_of_cons; right. }
    intros k Hk. apply not_elem_of_cons in Hk as [_ Hk]. by apply Hkeep.
Qed.

(** X14. When the bits of an inout port are split for one direction, the
    new bits keep every constant in its place and put a net in the place
    of every net; the nets they hold are pairwise different and none of
    them was in use before; the nets in use afterwards are the ones in
    use before and the new ones; and the net map sends every net of the
    port, under the direction, to one of the new nets, and is unchanged
    for every other net. *)
Theorem split_bits_fresh (d : string) (bits : list bit) (nets : gset Z)
    (net_map : gmap Z (gmap string Z)) (new_bits : list bit) (nets' : gset Z)
    (net_map' : gmap Z (gmap string Z)) :
  split_bits d bits nets net_map = Some (new_bits, nets', net_map') →
  Forall2 shaped bits new_bits ∧
  NoDup (nets_of new_bits) ∧
  (∀ n, n ∈ nets_of new_bits → n ∉ nets) ∧
  nets' = nets ∪ get_nets new_bits ∧
  (∀ n, Net n ∈ bits → ∃ m, net_map' !! n ≫= (fun ds => ds !! d) = Some m ∧
                            Net m ∈ new_bits) ∧
  (∀ n, Net n ∉ bits → net_map' !! n = net_map !! n).
Proof.
  intros Hsplit. pose proof (split_bits_cases d bits nets net_map) as Hc.
  rewrite Hsplit in Hc. by destruct Hc as (_ & ? & ? & ? & ? & ? & ?).
Qed.

(** X15. The split of the bits of a port fails (with the [IndexError] of
    [get_free_net]) exactly when the port has a net and no net is in use
    when the split starts. *)
Theorem split_bits_fails_iff (d : string) (bits : list bit) (nets : gset Z)
    (net_map : gmap Z (gmap string Z)) :
  split_bits d bits nets net_map = None ↔ nets = ∅ ∧ ∃ n, Net n ∈ bits.
Proof.
  pose proof (split_bits_cases d bits nets net_map) as Hc.
  destruct (split_bits d bits nets net_map) as [ [ [new_bits nets'] net_map'] | ].
  - destruct Hc as [Hempty _]. split; [ done | ].
    intros [He (n & Hn)]. by destruct (Hempty He n).
  - done.
Qed.

(** ** The ports of the top module *)

(** A port of a module: its direction and its bits. *)
Record port : Type := mkPort {
  direction : string;
  bits : list bit
}.

(** The variables of the loop that splits the ports (lines 166-202 of
    [main]): the ports of the module, the nets in use, the new ports, the
    net map and the port map.  The dicts are maps; the order of their
    items is kept where the code iterates over them, for [inouts]. *)
Record splitting : Type := mkSplitting {
  module_ports : gmap string port;
  used_nets : gset Z;
  new_ports : gmap string port;
  net_map_of : gmap Z (gmap string Z);
  port_map : list (string * string)
}.

(** The name of the port that replaces [name] for a direction:
    [name + "_$" + dir[:3]]. *)
Definition new_name (name dir : string) : string :=
  String.append name (String.append "_$" (String.substring 0%nat 3%nat dir)).

(** The body of the loop over the two directions (lines 177-202). *)
Definition split_direction (name : string) (p : port) (dir : string) (s : splitting)
  : option splitting :=
  match split_bits (String.substring 0%nat 1%nat dir) (bits p) (used_nets s) (net_map_of s) with
  | None => None
  | Some (new_bits, nets', net_map') =>
      Some (mkSplitting (module_ports s) nets'
              (<[new_name name dir := mkPort dir new_bits]> (new_ports s))
              net_map'
              (port_map s ++ [(name, new_name name dir)]))
  end.

(** The body of the loop over the inout ports (lines 171-202): the port is
    removed from the module, its nets from the nets in use, and it is
    split for ["input"], then for ["output"]. *)
Definition split_port (name : string) (p : port) (s : splitting) : option splitting :=
  let s0 := mkSplitting (delete name (module_ports s)) (used_nets s ∖ get_nets (bits p))
              (new_ports s) (net_map_of s) (port_map s) in
  match split_direction name p "input" s0 with
  | None => None
  | Some s1 => split_direction name p "output" s1
  end.

Fixpoint split_ports (inouts : list (string * port)) (s : splitting) : option splitting :=
  match inouts with
  | [] => Some s
  | (name, p) :: rest =>
      match split_port name p s with
      | None => None
      | Some s' => split_ports rest s'
      end
  end.

Definition is_inout (item : string * port) : Prop := direction item.2 = "inout".

#[global] Instance is_inout_dec (item : string * port) : Decision (is_inout item).
Proof. unfold is_inout. apply _. Defined.

(** Lines 163-205 of [main]: [ports] are the items of [module["ports"]] in
    their order, [nets] the nets in use in the module (lines 151-161).  The
    result holds the ports of the module after [update(new_ports)]. *)
Definition split_inouts (ports : list (string * port)) (nets : gset Z) : option splitting :=
  let inouts := filter is_inout ports in
  match split_ports inouts (mkSplitting (list_to_map ports) nets ∅ ∅ []) with
  | None => None
  | Some s =>
      Some (mkSplitting (new_ports s ∪ module_ports s) (used_nets s) (new_ports s)
              (net_map_of s) (port_map s))
  end.

(** The two entries of the port map for an inout port. *)
Definition port_pairs (item : string * port) : list (string * string) :=
  [(item.1, new_name item.1 "input"); (item.1, new_name item.1 "output")].

Lemma split_direction_spec (name : string) (p : port) (dir : string) (s s' : splitting) :
  split_direction name p dir s = Some s' →
  module_ports s' = module_ports s ∧
  (∃ new_bits, new_ports s' = <[new_name name dir := mkPort dir new_bits]> (new_ports s)) ∧
  port_map s' = port_map s ++ [(name, new_name name dir)].
Proof.
  unfold split_direction.
  destruct (split_bits _ _ _ _) as [ [ [new_bits nets'] net_map'] | ]; [ | done ].
  intros [= <-]. simpl. eauto.
Qed.

Lemma split_port_spec (name : string) (p : port) (s s' : splitting) :
  split_port name p s = Some s' →
  module_ports s' = delete name (module_ports s) ∧
  (∀ k q, new_ports s' !! k = Some q →
          direction q ≠ "inout" ∨ new_ports s !! k = Some q) ∧
  port_map s' = port_map s ++ port_pairs (name, p).
Proof.
  unfold split_port.
  destruct (split_direction name p "input" _) as [ s1 | ] eqn:H1; [ | done ].
  intros H2.
  apply split_direction_spec in H1 as (Hp1 & (b1 & Hn1) & Hm1).
  apply split_direction_spec in H2 as (Hp2 & (b2 & Hn2) & Hm2).
  simpl in *. split; [ congruence | ]. split.
  - intros k q. rewrite Hn2, Hn1.
    rewrite lookup_insert_Some. intros [ [_ <-] | [_ Hk] ]; [ by left | ].
    apply lookup_insert_Some in Hk as [ [_ <-] | [_ Hk] ]; [ by left | by right ].
  - rewrite Hm2, Hm1, <- app_assoc. done.
Qed.

Lemma split_ports_spec (inouts : list (string * port)) (s s' : splitting) :
  split_ports inouts s = Some s' →
  (∀ k, module_ports s' !! k =
        if decide (k ∈ inouts.*1) then None else module_ports s !! k) ∧
  (∀ k q, new_ports s' !! k = Some q →
          direction q ≠ "inout" ∨ new_ports s !! k = Some q) ∧
  port_map s' = port_map s ++ concat (port_pairs <$> inouts).
Proof.
  revert s. induction inouts as [ | [name p] inouts IH ]; intros s; simpl.
  - intros [= <-]. split.
    + intros k. destruct (decide (k ∈ [])) as [ Hin | _ ]; [ by apply elem_of_nil in Hin | done ].
    + split; [ by right | by rewrite app_nil_r ].
  - destruct (split_port name p s) as [ s1 | ] eqn:H1; [ | done ].
    intros Hrest. apply split_port_spec in H1 as (Hp1 & Hn1 & Hm1).
    apply IH in Hrest as (Hp & Hn & Hm). split; [ | split ].
    + intros k. rewrite Hp, Hp1.
      destruct (decide (k ∈ inouts.*1)) as [ Hin | Hnotin ].
      * rewrite decide_True; [ done | by apply elem_of_cons; right ].
      * destruct (decide (k = name)) as [ -> | Hne ].
        -- rewrite lookup_delete_eq. rewrite decide_True; [ done | by apply elem_of_cons; left ].
        -- rewrite lookup_delete_ne by done. rewrite decide_False; [ done | ].
           intros Hin. apply elem_of_cons in Hin as [ | ]; done.
    + intros k q Hk. destruct (Hn k q Hk) as [ | Hk1 ]; [ by left | ]. by apply Hn1.
    + rewrite Hm, Hm1, <- app_assoc. done.
Qed.

(** X16. When the split of the inout ports of a module succeeds, no port
    of the module is an inout port any more, and the port map lists, for
    every inout port in the order of the ports, its input name and then
    its output name. *)
Theorem split_inouts_leaves_no_inout (ports : list (string * port)) (nets : gset Z)
    (s : splitting) :
  split_inouts ports nets = Some s →
  (∀ name p, module_ports s !! name = Some p → direction p ≠ "inout") ∧
  port_map s = concat (port_pairs <$> filter is_inout ports).
Proof.
  unfold split_inouts.
  destruct (split_ports _ _) as [ s1 | ] eqn:Hsplit; [ | done ].
  intros [= <-]. simpl.
  apply split_ports_spec in Hsplit as (Hp & Hn & Hm). simpl in *.
  split; [ | done ].
  intros name p Hlook. apply lookup_union_Some_raw in Hlook as [ Hnew | [_ Hold] ].
  - destruct (Hn name p Hnew) as [ | Hk ]; [ done | ]. by rewrite lookup_empty in Hk.
  - rewrite Hp in Hold.
    destruct (decide (name ∈ (filter is_inout ports).*1)) as [ | Hnotin ]; [ done | ].
    intros Hdir. apply Hnotin. apply elem_of_list_to_map_2 in Hold.
    apply list_elem_of_fmap. exists (name, p). split; [ done | ].
    apply list_elem_of_filter. done.
Qed.

(** X17. The split of an inout port fails (with the [IndexError] of
    [get_free_net]) exactly when the port has a net and every net in use
    is a net of that port: once its own nets are taken out there is no
    net left to count from. *)
Theorem split_port_fails_iff (name : string) (p : port) (s : splitting) :
  split_port name p s = None ↔
  used_nets s ⊆ get_nets (bits p) ∧ ∃ n, Net n ∈ bits p.
Proof.
  unfold split_port, split_direction. simpl.
  pose proof (split_bits_cases "i" (bits p) (used_nets s ∖ get_nets (bits p)) (net_map_of s))
    as H1.
  destruct (split_bits "i" _ _ _) as [ [ [b1 nets1] map1] | ]; simpl.
  - destruct H1 as (Hempty & Hshape & _ & _ & -> & _).
    pose proof (split_bits_cases "o" (bits p)
                  (used_nets s ∖ get_nets (bits p) ∪ get_nets b1) map1) as H2.
    destruct (split_bits "o" _ _ _) as [ [ [b2 nets2] map2] | ]; simpl.
    + split; [ done | ]. intros [Hsub (n & Hn)].
      destruct (Hempty ltac:(set_solver) n Hn).
    + destruct H2 as [He (n & Hn)]. exfalso.
      apply list_elem_of_lookup in Hn as [i Hi].
      destruct (Forall2_lookup_l _ _ _ _ _ Hshape Hi) as (b & Hb & m & ->).
      assert (m ∈ get_nets b1) as Hm.
      { apply elem_of_get_nets. by eapply list_elem_of_lookup_2. }
      set_solver.
  - destruct H1 as [He Hn]. split; [ | done ]. intros _. split; [ | done ].
    intros k Hk. destruct (decide (k ∈ get_nets (bits p))) as [ | Hnotin ]; [ done | ].
    assert (k ∈ used_nets s ∖ get_nets (bits p)) as Hin by set_solver.
    rewrite He in Hin. set_solver.
Qed.

(** ** The net map and the connections of the cells *)

(** Every net of the map has an input and an output net, and they are
    different. *)
Definition both_directions (net_map : gmap Z (gmap string Z)) : Prop :=
  ∀ n ds, net_map !! n = Some ds →
          ∃ i o, ds !! "i" = Some i ∧ ds !! "o" = Some o ∧ i ≠ o.

(** [len(set(net_map.keys()) & set(port_nets)) == 0] (line 251). *)
Definition untouched (net_map : gmap Z (gmap string Z)) (port_nets : list bit) : bool :=
  forallb (fun b => match b with
                    | Net n => negb (bool_decide (is_Some (net_map !! n)))
                    | Const _ => true
                    end) port_nets.

(** [port_name.endswith(suffix)]. *)
Definition endswith (port_name suffix : string) : bool :=
  bool_decide (String.list_ascii_of_string suffix `suffix_of` String.list_ascii_of_string port_name).

(** The loop over the nets of a connection (lines 258-261); [None] is the
    [KeyError] of [net_map[n][dir[0]]]. *)
Fixpoint remap_nets (d : string) (net_map : gmap Z (gmap string Z)) (port_nets : list bit)
  : option (list bit) :=
  match port_nets with
  | [] => Some []
  | Net n :: rest =>
      match net_map !! n with
      | Some ds =>
          match ds !! d with
          | None => None
          | Some mapped_n => cons (Net mapped_n) <$> remap_nets d net_map rest
          end
      | None => cons (Net n) <$> remap_nets d net_map rest
      end
  | Const c :: rest => cons (Const c) <$> remap_nets d net_map rest
  end.

(** The body of the loop over the directions (lines 257-261); [None] is
    also the [KeyError] of [port_directions[port_name]]. *)
Definition remap_direction (net_map : gmap Z (gmap string Z))
    (port_directions : gmap string string) (port_name dir : string) (port_nets : list bit)
  : option (list bit) :=
  match port_directions !! port_name with
  | None => None
  | Some port_direction =>
      if bool_decide (port_direction = dir)
         && endswith port_name (String.append "$" (String.substring 0%nat 3%nat dir))
      then remap_nets (String.substring 0%nat 1%nat dir) net_map port_nets
      else Some port_nets
  end.

(** The body of the loop over the connections of a cell (lines 249-262). *)
Definition remap_connection (net_map : gmap Z (gmap string Z))
    (port_directions : gmap string string) (port_name : string) (port_nets : list bit)
  : option (list bit) :=
  if untouched net_map port_nets then Some port_nets
  else
    match remap_direction net_map port_directions port_name "input" port_nets with
    | None => None
    | Some port_nets' =>
        remap_direction net_map port_directions port_name "output" port_nets'
    end.

(** The bit a connection gets for a direction: the net recorded for its
    net, or the bit itself. *)
Definition image (d : string) (net_map : gmap Z (gmap string Z)) (b : bit) : bit :=
  match b with
  | Net n =>
      match net_map !! n ≫= (fun ds => ds !! d) with
      | Some mapped_n => Net mapped_n
      | None => b
      end
  | Const _ => b
  end.

Lemma split_bits_other_direction (d d' : string) (bits : list bit) (nets : gset Z)
    (net_map : gmap Z (gmap string Z)) (new_bits : list bit) (nets' : gset Z)
    (net_map' : gmap Z (gmap string Z)) (n : Z) :
  d' ≠ d →
  split_bits d bits nets net_map = Some (new_bits, nets', net_map') →
  net_map' !! n ≫= (fun ds => ds !! d') = net_map !! n ≫= (fun ds => ds !! d').
Proof.
  intros Hd. revert nets net_map new_bits nets' net_map'.
  induction bits as [ | [ k | c ] bits IH ]; intros nets net_map new_bits nets' net_map'; simpl.
  - by intros [= _ _ ->].
  - destruct (get_free_net nets) as [ m | ]; [ | done ].
    destruct (split_bits d bits _ _) as [ [ [b1 nets1] map1] | ] eqn:Hrest; [ | done ].
    intros [= _ _ <-]. rewrite (IH _ _ _ _ _ Hrest).
    destruct (decide (n = k)) as [ -> | Hne ].
    + rewrite lookup_insert_eq. simpl. rewrite lookup_insert_ne by done.
      destruct (net_map !! k); simpl; [ done | apply lookup_empty ].
    + by rewrite lookup_insert_ne.
  - destruct (split_bits d bits _ _) as [ [ [b1 nets1] map1] | ] eqn:Hrest; [ | done ].
    intros [= _ _ <-]. by apply (IH _ _ _ _ _ Hrest).
Qed.

Lemma split_port_net_map (name : string) (p : port) (s s' : splitting) :
  split_port name p s = Some s' →
  (∀ n, Net n ∉ bits p → net_map_of s' !! n = net_map_of s !! n) ∧
  (∀ n, Net n ∈ bits p →
        ∃ ds i o, net_map_of s' !! n = Some ds ∧
                  ds !! "i" = Some i ∧ ds !! "o" = Some o ∧ i ≠ o).
Proof.
  unfold split_port, split_direction. simpl.
  pose proof (split_bits_cases "i" (bits p) (used_nets s ∖ get_nets (bits p)) (net_map_of s))
    as H1.
  destruct (split_bits "i" _ _ _) as [ [ [b1 nets1] map1] | ] eqn:E1; [ | done ]. simpl.
  destruct H1 as (_ & _ & _ & _ & -> & Hin1 & Hout1).
  pose proof (split_bits_cases "o" (bits p)
                (used_nets s ∖ get_nets (bits p) ∪ get_nets b1) map1) as H2.
  destruct (split_bits "o" _ _ _) as [ [ [b2 nets2] map2] | ] eqn:E2; [ | done ]. simpl.
  destruct H2 as (_ & _ & _ & Hfresh2 & -> & Hin2 & Hout2).
  intros [= <-]. simpl. split.
  - intros n Hn. by rewrite (Hout2 n Hn), (Hout1 n Hn).
  - intros n Hn.
    destruct (Hin1 n Hn) as (i & Hi & Hib), (Hin2 n Hn) as (o & Ho & Hob).
    pose proof (split_bits_other_direction "o" "i" _ _ _ _ _ _ n ltac:(done) E2) as Hkeep.
    rewrite Hi in Hkeep.
    destruct (map2 !! n) as [ ds | ] eqn:Hds; [ | done ]. simpl in *.
    exists ds, i, o. repeat split; try done.
    intros ->. apply (Hfresh2 o); [ by apply elem_of_nets_of | ].
    apply elem_of_union. right. by apply elem_of_get_nets.
Qed.

Lemma split_ports_net_map (inouts : list (string * port)) (s s' : splitting) :
  split_ports inouts s = Some s' →
  both_directions (net_map_of s) →
  both_directions (net_map_of s') ∧
  ∀ n, is_Some (net_map_of s' !! n) ↔
       is_Some (net_map_of s !! n) ∨ ∃ item, item ∈ inouts ∧ Net n ∈ bits item.2.
Proof.
  revert s. induction inouts as [ | [name p] inouts IH ]; intros s; simpl.
  - intros [= <-] Hboth. split; [ done | ]. intros n. split; [ by left | ].
    intros [ | (item & Hin & _) ]; [ done | by apply elem_of_nil in Hin ].
  - destruct (split_port name p s) as [ s1 | ] eqn:H1; [ | done ].
    intros Hrest Hboth. apply split_port_net_map in H1 as [Hout Hin].
    assert (both_directions (net_map_of s1)) as Hboth1.
    { intros n ds Hds. destruct (decide (Net n ∈ bits p)) as [ Hn | Hn ].
      - destruct (Hin n Hn) as (ds' & i & o & Hds' & ?). rewrite Hds in Hds'.
        injection Hds' as <-. by exists i, o.
      - rewrite (Hout n Hn) in Hds. by eapply Hboth. }
    destruct (IH s1 Hrest Hboth1) as [Hboth' Hkeys]. split; [ done | ].
    intros n. rewrite Hkeys. split.
    + intros [ Hs1 | (item & Hitem & Hn) ].
      * destruct (decide (Net n ∈ bits p)) as [ Hn | Hn ].
        -- right. exists (name, p). split; [ by apply elem_of_cons; left | done ].
        -- left. by rewrite <- (Hout n Hn).
      * right. exists item. split; [ by apply elem_of_cons; right | done ].
    + intros [ Hs | (item & Hitem & Hn) ].
      * destruct (decide (Net n ∈ bits p)) as [ Hn | Hn ].
        -- left. destruct (Hin n Hn) as (ds & _ & _ & -> & _). done.
        -- left. by rewrite (Hout n Hn).
      * apply elem_of_cons in Hitem as [ -> | Hitem ].
        -- left. destruct (Hin n Hn) as (ds & _ & _ & -> & _). done.
        -- right. by exists item.
Qed.

Lemma split_inouts_net_map_aux (ports : list (string * port)) (nets : gset Z)
    (s : splitting) :
  split_inouts ports nets = Some s →
  both_directions (net_map_of s) ∧
  ∀ n, is_Some (net_map_of s !! n) ↔
       ∃ name p, (name, p) ∈ ports ∧ direction p = "inout" ∧ Net n ∈ bits p.
Proof.
  unfold split_inouts.
  destruct (split_ports _ _) as [ s1 | ] eqn:Hsplit; [ | done ].
  intros [= <-]. simpl.
  apply split_ports_net_map in Hsplit as [Hboth Hkeys].
  2: { intros n ds Hds. simpl in Hds. by rewrite lookup_empty in Hds. }
  split; [ done | ]. intros n. rewrite Hkeys. simpl. split.
  - intros [ Hempty | ([name p] & Hin & Hn) ].
    + rewrite lookup_empty in Hempty. by destruct Hempty.
    + apply list_elem_of_filter in Hin as [Hdir Hin]. by exists name, p.
  - intros (name & p & Hin & Hdir & Hn). right. exists (name, p).
    split; [ | done ]. by apply list_elem_of_filter.
Qed.

(** X18. When the split of the inout ports succeeds, the net map has an
    entry for exactly the nets of the inout ports, and every entry holds
    an input net and an output net that are different. *)
Theorem split_inouts_net_map (ports : list (string * port)) (nets : gset Z)
    (s : splitting) :
  split_inouts ports nets = Some s →
  (∀ n, is_Some (net_map_of s !! n) ↔
        ∃ name p, (name, p) ∈ ports ∧ direction p = "inout" ∧ Net n ∈ bits p) ∧
  (∀ n ds, net_map_of s !! n = Some ds →
           ∃ i o, ds !! "i" = Some i ∧ ds !! "o" = Some o ∧ i ≠ o).
Proof.
  intros Hsplit. apply split_inouts_net_map_aux in Hsplit as [Hboth Hkeys]. done.
Qed.

Lemma remap_nets_image (d : string) (net_map : gmap Z (gmap string Z))
    (port_nets : list bit) :
  (∀ n ds, net_map !! n = Some ds → is_Some (ds !! d)) →
  remap_nets d net_map port_nets = Some (image d net_map <$> port_nets).
Proof.
  intros Hd. induction port_nets as [ | [ n | c ] rest IH ]; simpl; [ done | | ].
  - destruct (net_map !! n) as [ ds | ] eqn:Hds; simpl.
    + destruct (Hd n ds Hds) as [m Hm]. rewrite Hm, IH. done.
    + by rewrite IH.
  - by rewrite IH.
Qed.

Lemma untouched_image (d : string) (net_map : gmap Z (gmap string Z))
    (port_nets : list bit) :
  untouched net_map port_nets = true → image d net_map <$> port_nets = port_nets.
Proof.
  induction port_nets as [ | b rest IH ]; [ done | ].
  rewrite fmap_cons. unfold untouched. simpl.
  intros [Hb Hrest]%andb_true_iff. rewrite (IH Hrest). f_equal.
  destruct b as [ n | c ]; [ | done ]. simpl.
  apply negb_true_iff, bool_decide_eq_false in Hb.
  destruct (net_map !! n) as [ ds | ]; [ | done ]. by destruct Hb.
Qed.

(** X19. With the net map a successful split of the inout ports leaves,
    the remap of a connection of a cell never fails on the net map: for a
    port that has a direction it returns, for an input port whose name
    ends in [$inp] the connection with every net of an inout port
    replaced by its input net, for an output port whose name ends in
    [$out] the same with its output net, and for any other port the
    connection as it was. *)
Theorem remap_after_split (ports : list (string * port)) (nets : gset Z) (s : splitting)
    (port_directions : gmap string string) (port_name port_direction : string)
    (port_nets : list bit) :
  split_inouts ports nets = Some s →
  port_directions !! port_name = Some port_direction →
  remap_connection (net_map_of s) port_directions port_name port_nets
  = Some (if bool_decide (port_direction = "input") && endswith port_name "$inp"
          then image "i" (net_map_of s) <$> port_nets
          else if bool_decide (port_direction = "output") && endswith port_name "$out"
               then image "o" (net_map_of s) <$> port_nets
               else port_nets).
Proof.
  intros Hsplit Hdir. apply split_inouts_net_map_aux in Hsplit as [Hboth _].
  assert (∀ n ds, net_map_of s !! n = Some ds → is_Some (ds !! "i")) as Hi.
  { intros n ds Hds. destruct (Hboth n ds Hds) as (i & o & -> & _). done. }
  assert (∀ n ds, net_map_of s !! n = Some ds → is_Some (ds !! "o")) as Ho.
  { intros n ds Hds. destruct (Hboth n ds Hds) as (i & o & _ & -> & _). done. }
  unfold remap_connection, remap_direction. rewrite Hdir.
  change (String.append "$" (String.substring 0 3 "input")) with "$inp".
  change (String.append "$" (String.substring 0 3 "output")) with "$out".
  change (String.substring 0 1 "input") with "i".
  change (String.substring 0 1 "output") with "o".
  destruct (untouched (net_map_of s) port_nets) eqn:Hun.
  { rewrite !(untouched_image _ _ _ Hun).
    destruct (bool_decide (port_direction = "input") && endswith port_name "$inp"); [ done | ].
    by destruct (bool_decide (port_direction = "output") && endswith port_name "$out"). }
  destruct (bool_decide (port_direction = "input")) eqn:Hin.
  - apply bool_decide_eq_true in Hin as ->.
    rewrite (bool_decide_eq_false_2 ("input" = "output")) by done.
    destruct (endswith port_name "$inp"); cbn [andb]; [ | done ].
    by rewrite (remap_nets_image "i" _ _ Hi).
  - cbn [andb].
    destruct (bool_decide (port_direction = "output") && endswith port_name "$out");
      [ | done ].
    by apply remap_nets_image.
Qed.

End SplitInouts.

(** * Examples

    A small tool chain: synthesis of an eblif from the sources and
    packing of a bitstream from the eblif, and modules that keep less than
    they predict or predict less than they declare. *)

Definition toolchain : Collaborators :=
  table_collaborators
    [ ("yosys", mkTableModule [("eblif", PStr "top.eblif")] [("top.eblif", 1)]);
      ("vpr", mkTableModule [("bitstream", PStr "top.bit")] [("top.bit", 2)]);
      ("gen", mkTableModule [("a", PStr "a.out"); ("b", PStr "b.out")] [("a.out", 1)]);
      ("half", mkTableModule [("a", PStr "a.out")] [("a.out", 1)]) ].

#[local] Existing Instance toolchain.

(** Proves an equation between closed terms by evaluating both sides. *)
Ltac compute_eq :=
  lazymatch goal with
  | |- _ = ?b => vm_cast_no_check (@eq_refl _ b)
  end.

(** Proves a closed decidable proposition by evaluating its decision. *)
Ltac compute_decide :=
  refine (bool_decide_unpack _ _); vm_cast_no_check I.

Definition synth : Stage :=
  mkStage "synth" "yosys" [mkIO "sources" "req"] [mkIO "eblif" "req"].

Definition pack : Stage :=
  mkStage "pack" "vpr" [mkIO "eblif" "req"] [mkIO "bitstream" "req"].

Definition project : FlowConfig :=
  mkFlowConfig [synth; pack] [("sources", PStr "top.v")].

(** The state a method leaves. *)
Definition after {A : Type} (m : action A) (st : Flow) : Flow :=
  state_of (m st).

(** The project after a build, the sources edited since (their digest
    was 5 and is 6), in a way that does not change the eblif. *)
Definition edited : Flow :=
  blank "bitstream" project
        (Some {[ ("top.v", "synth") := 5; ("top.eblif", "pack") := 1;
                 ("top.bit", "__target") := 2 ]})
        ∅
        {[ "top.v" := 6; "top.eblif" := 1; "top.bit" := 2 ]}.

Definition edited_planned : Flow := after (Flow_init 5) edited.

Definition edited_inputs_built : Flow :=
  after (build_takes (_build_dep 2) pack false (takes pack)) edited_planned.

Lemma skip_rebuild_witness :
  ∃ st2, _build_dep 3 "bitstream" edited_planned = Returns true st2 ∧
         executed st2 = executed edited_inputs_built ∧
         drive st2 = drive edited_inputs_built ∧
         printed st2 = printed edited_inputs_built ++ [(2, MsgSkippingRebuild "bitstream")].
Proof.
  apply (skip_rebuild 2 "bitstream" edited_planned edited_inputs_built pack
                      (PStr "top.bit") true);
    [ compute_eq | compute_eq | compute_eq | compute_eq | left; compute_decide | | compute_eq ].
  assert (match f4cache edited_planned with Some _ => false | None => true end = false)
    as -> by compute_eq.
  unfold edited_inputs_built, after.
  apply (returns_after (build_takes (_build_dep 2) pack false (takes pack)) edited_planned false).
  compute_eq.
Defined.

(** A stage that declares a required and an on-demand output and runs a
    module predicting the first only. *)
Definition partial : Stage :=
  mkStage "partial" "half" [] [mkIO "a" "req"; mkIO "b" "demand"].

Definition partial_flow : Flow :=
  upd_os_map (fun _ => {[ "a" := partial; "b" := partial ]})
             (blank "a" (mkFlowConfig [partial] []) None ∅ ∅).


(** In this example the on-demand output is dropped from the map. *)
Example partial_drops_b :
  (λ st, (os_map st !! "a", os_map st !! "b"))
    <$> returned (for_each (verify_output partial (dict_of_items [("a", PStr "a.out")]))
                           (produces partial) partial_flow)
  = Some (Some partial, None).
Proof. compute_eq. Qed.

(** ** Where the code departs from its description *)

(** A stage with two required outputs, run by a module that predicts both
    and writes the first only; the flow is built for the first. *)
Definition twin : Stage :=
  mkStage "twin" "gen" [] [mkIO "a" "req"; mkIO "b" "req"].

Definition twin_start : Flow :=
  blank "a" (mkFlowConfig [twin] []) None ∅ ∅.

(** C5 (not met by the code). After the module of [twin] has been
    executed its required output [b] is resolved to a path that is not on
    the drive, yet the build of [a] returns: the loop over the products
    checks the paths of the dependency being built, not those of the
    product. *)
Theorem missing_required_product_unnoticed :
  (λ st, (executed st, dict_get (dep_paths st) "b", path_exists (drive st) "b.out",
          path_exists (drive st) "a.out"))
    <$> returned (build 5 twin_start)
  = Some (["twin"], PStr "b.out", false, true).
Proof. compute_eq. Qed.

(** A stage whose first required input is an existing file and whose
    second required input has neither a path nor a provider. *)
Definition stuck : Stage :=
  mkStage "stuck" "vpr" [mkIO "sources" "req"; mkIO "constraints" "req"]
          [mkIO "bitstream" "req"].

Definition stuck_start : Flow :=
  blank "bitstream" (mkFlowConfig [stuck] [("sources", PStr "top.v")]) (Some ∅) ∅
        {[ "top.v" := 5 ]}.

(** C3 (not met by the code). Planning abandons [stuck] for its unmet
    required input [constraints], with the diagnostic, without executing
    anything and without resolving its output; but the stage is in the run
    set, where the input declared before the unmet one has put it. *)
Theorem unreachable_stage_in_run_set :
  (λ st, (bool_decide ("stuck" ∈ run_stages st), printed st,
          dep_paths st !! "bitstream", executed st))
    <$> returned (Flow_init 5 stuck_start)
  = Some (true,
          [(2, MsgCausingRebuild "sources" "stuck"); (0, MsgUnreachable "stuck" "constraints")],
          None, []).
Proof. compute_eq. Qed.

(** C9 (not met by the code). [update_dep_statuses] returns from inside
    its loops: of a list or a dictionary it updates and compares the first
    item only, and on an empty one it is fatal.  Below, the second path of
    the list has changed since it was recorded: the update reports no
    difference and leaves the record of the second path as it was, while
    planning's [dep_differ], which looks at every item, reports one. *)
Theorem update_dep_statuses_first_item_only :
  (∀ (C : Collaborators) fs p rest consumer cache,
     update_dep_statuses fs (PList (p :: rest)) consumer cache
     = update_dep_statuses fs p consumer cache) ∧
  (∀ (C : Collaborators) fs k p rest consumer cache,
     update_dep_statuses fs (PDict ((k, p) :: rest)) consumer cache
     = update_dep_statuses fs p consumer cache) ∧
  (∀ (C : Collaborators) fs consumer cache,
     update_dep_statuses fs (PList []) consumer cache = Err FatalWrongPathsType) ∧
  update_dep_statuses {[ "a.v" := 1; "b.v" := 2 ]} (PList [PStr "a.v"; PStr "b.v"]) "synth"
                      {[ ("a.v", "synth") := 1; ("b.v", "synth") := 7 ]}
  = Ok (false, {[ ("a.v", "synth") := 1; ("b.v", "synth") := 7 ]}) ∧
  dep_differ {[ "a.v" := 1; "b.v" := 2 ]} (PList [PStr "a.v"; PStr "b.v"]) "synth"
             {[ ("a.v", "synth") := 1; ("b.v", "synth") := 7 ]}
  = true.
Proof. repeat split; try done; compute_eq. Qed.

(** ** Runs without a cache *)




(** The project built without a cache, and built again, by a new flow,
    on what the first build left. *)
Definition nocache_first : Flow :=
  blank "bitstream" project None ∅ {[ "top.v" := 5 ]}.

Definition nocache_second : Flow :=
  blank "bitstream" project None
        (value_overrides (after (build 5) nocache_first))
        (drive (after (build 5) nocache_first)).

(** Without a cache the second build, on sources and products that have
    not changed, executes both modules again: the full rebuild a disabled
    cache forces. *)
Example nocache_second_build_executes :
  executed <$> returned (build 5 nocache_first) = Some ["synth"; "pack"] ∧
  executed <$> returned (build 5 nocache_second) = Some ["synth"; "pack"].
Proof. split; compute_eq. Qed.

(** ** Building twice with a cache *)

#[local] Instance toolchain_cache_eq_dec : EqDecision (@F4Cache toolchain).
Proof. unfold F4Cache, toolchain, table_collaborators. apply _. Defined.

(** A check that the flow is settled, with a cache that the updates
    leave as it is, on a list that holds the dependencies the build comes
    to: the target is in the list, and for every dependency of the list
    its resolved path is on the drive and, if it has to be rebuilt, the
    inputs of its provider are in the list and the update of their
    statuses reports no difference and gives the same cache. *)
Definition settled_take (deps : list string) (st : Flow) (cache : F4Cache)
    (provider : Stage) (take : IO) : bool :=
  bool_decide (io_name take ∈ deps) &&
  match dep_paths st !! io_name take with
  | Some paths =>
      if truthy paths then
        match update_dep_statuses (drive st) paths (name provider) cache with
        | Ok (false, cache') => bool_decide (cache' = cache)
        | _ => false
        end
      else true
  | None => true
  end.

Definition settled_dep (deps : list string) (st : Flow) (cache : F4Cache) (dep : string)
  : bool :=
  let paths := dict_get (dep_paths st) dep in
  (if truthy paths
   then match req_exists (drive st) paths with Ok true => true | _ => false end
   else true) &&
  match os_map st !! dep with
  | Some provider =>
      if truthy paths && bool_decide (name provider ∈ run_stages st)
      then forallb (settled_take deps st cache provider) (takes provider)
      else true
  | None => true
  end.

Definition settled_on (deps : list string) (st : Flow) : bool :=
  match f4cache st with
  | Some cache =>
      bool_decide (target st ∈ deps) && forallb (settled_dep deps st cache) deps
  | None => false
  end.

Lemma settled_on_sound (deps : list string) (st : Flow) :
  settled_on deps st = true → settled st.
Proof.
  unfold settled_on. destruct (f4cache st) as [ cache | ] eqn:Hcache; [ | done ].
  intros [Htarget Hdeps]%andb_true_iff. apply bool_decide_eq_true in Htarget.
  rewrite forallb_forall in Hdeps.
  assert (∀ dep, dep ∈ deps → settled_dep deps st cache dep = true) as Hdep.
  { intros dep Hin. apply Hdeps. by apply list_elem_of_In. }
  assert (∀ dep provider take,
            dep ∈ deps → rebuilds st dep provider → take ∈ takes provider →
            settled_take deps st cache provider take = true) as Htake.
  { intros dep provider take Hin (Htruthy & Hprov & Hrun) Htake.
    specialize (Hdep dep Hin). unfold settled_dep in Hdep.
    apply andb_true_iff in Hdep as [_ Hdep]. rewrite Hprov, Htruthy in Hdep.
    rewrite (bool_decide_eq_true_2 _ Hrun) in Hdep. simpl in Hdep.
    rewrite forallb_forall in Hdep. apply Hdep. by apply list_elem_of_In. }
  assert (∀ dep, comes_to st dep → dep ∈ deps) as Hcomes.
  { induction 1 as [ | dep provider take _ IH Hre Hin ]; [ done | ].
    specialize (Htake dep provider take IH Hre Hin).
    apply andb_true_iff in Htake as [Htake _]. by apply bool_decide_eq_true in Htake. }
  exists (fun cache' => cache' = cache). split; [ by exists cache | ]. split.
  - intros cache' dep provider take paths -> Hcome Hre Hin Hpaths Htruthy.
    specialize (Htake dep provider take (Hcomes dep Hcome) Hre Hin).
    apply andb_true_iff in Htake as [_ Htake]. rewrite Hpaths, Htruthy in Htake.
    destruct (update_dep_statuses (drive st) paths (name provider) cache)
      as [ [ [ | ] cache'] | e ]; try done.
    apply bool_decide_eq_true in Htake as ->. by exists cache.
  - intros dep Hcome Htruthy. specialize (Hdep dep (Hcomes dep Hcome)).
    unfold settled_dep in Hdep. apply andb_true_iff in Hdep as [Hdep _].
    rewrite Htruthy in Hdep.
    by destruct (req_exists (drive st) (dict_get (dep_paths st) dep)) as [ [ | ] | ].
Qed.

(** The flow a new run constructs on what a build left: the same target,
    configuration and value overrides, the cache and the drive of the end
    of the build. *)
Definition again (st0 : Flow) : Flow :=
  blank (target st0) (cfg st0)
        (f4cache (after (build 5) st0))
        (value_overrides st0)
        (drive (after (build 5) st0)).

(** The project built with an empty cache, and built again, by a new
    flow, with the cache and on the drive the first build left. *)
Definition cached_first : Flow :=
  blank "bitstream" project (Some ∅) ∅ {[ "top.v" := 5 ]}.

Definition cached_second : Flow :=
  blank "bitstream" project
        (f4cache (after (build 5) cached_first))
        (value_overrides (after (build 5) cached_first))
        (drive (after (build 5) cached_first)).

Example cached_first_build_executes :
  executed <$> returned (build 5 cached_first) = Some ["synth"; "pack"].
Proof. compute_eq. Qed.

Lemma cached_second_settled : settled (after (Flow_init 5) cached_second).
Proof. apply (settled_on_sound ["bitstream"; "eblif"; "sources"]). compute_eq. Qed.

(** The same when the target is the eblif, which leaves the stage [pack]
    out of the build: the first build executes [synth], and the flow
    constructed next is settled, whatever the cache holds for [pack]. *)
Definition eblif_first : Flow :=
  blank "eblif" project (Some ∅) ∅ {[ "top.v" := 5 ]}.

Example eblif_second_settled :
  executed <$> returned (build 5 eblif_first) = Some ["synth"] ∧
  settled (after (Flow_init 5) (again eblif_first)).
Proof.
  split; [ compute_eq | ].
  apply (settled_on_sound ["eblif"; "sources"]). compute_eq.
Qed.

(** The project with two source files.  The update of the statuses
    records the first file only, so that planning finds the second one
    untracked in every run and puts both stages in the run set; the
    second build comes to both and skips both. *)
Definition listed : FlowConfig :=
  mkFlowConfig [synth; pack] [("sources", PList [PStr "a.v"; PStr "b.v"])].

Definition listed_first : Flow :=
  blank "bitstream" listed (Some ∅) ∅ {[ "a.v" := 5; "b.v" := 6 ]}.

Example listed_first_build_executes :
  executed <$> returned (build 5 listed_first) = Some ["synth"; "pack"] ∧
  elements (run_stages (after (Flow_init 5) (again listed_first))) = ["synth"; "pack"].
Proof. split; compute_eq. Qed.








(** ** Resolution and build of the project *)

(** The project with an empty cache, its stages mapped and its sources
    given, before the resolution of the target. *)
Definition mapped : Flow :=
  upd_dep_paths (fun _ => {[ "sources" := PStr "top.v" ]})
    (upd_os_map (fun _ => {[ "eblif" := synth; "bitstream" := pack ]}) cached_first).

Lemma unpredicted_path_kept_witness :
  dep_paths (state_of (_resolve_dependencies 5 "bitstream" mapped)) !! "sources"
  = dep_paths mapped !! "sources".
Proof.
  apply (unpredicted_path_kept "sources" 5 "bitstream" mapped).
  intros m ctx. unfold module_map, toolchain, table_collaborators. simpl.
  repeat (destruct (decide _); simpl); compute_decide.
Defined.

Lemma missing_differs_witness :
  dep_differ {[ "a.v" := 1 ]} (PList [PStr "a.v"; PStr "b.v"]) "synth"
             {[ ("a.v", "synth") := 1; ("b.v", "synth") := 2 ]}
  = true.
Proof.
  apply (missing_differs {[ "a.v" := 1 ]} "synth"
                         {[ ("a.v", "synth") := 1; ("b.v", "synth") := 2 ]}
                         (PList [PStr "a.v"; PStr "b.v"])).
  compute_eq.
Defined.

Lemma map_outputs_to_stages_permutation_witness :
  match map_outputs_to_stages [synth; pack], map_outputs_to_stages [pack; synth] with
  | Ok m, Ok m' => m = m'
  | Err _, Err _ => True
  | _, _ => False
  end.
Proof.
  apply (map_outputs_to_stages_permutation [synth; pack] [pack; synth]).
  apply perm_swap.
Defined.

Definition cached_planned : Flow := after (Flow_init 5) cached_first.

Lemma built_dependency_exists_witness :
  req_exists (drive (state_of (_build_dep 5 "bitstream" cached_planned)))
             (dict_get (dep_paths cached_planned) "bitstream")
  = Ok true.
Proof.
  apply (built_dependency_exists 5 "bitstream" cached_planned
           (state_of (_build_dep 5 "bitstream" cached_planned))).
  - apply (returns_after (_build_dep 5 "bitstream") cached_planned true). compute_eq.
  - intros provider Hprovider.
    assert (os_map cached_planned !! "bitstream" = Some pack) as Hpack by compute_eq.
    rewrite Hpack in Hprovider. injection Hprovider as <-.
    exists (mkIO "bitstream" "req"). split; [ compute_decide | reflexivity ].
Defined.

Definition stuck_planned : Flow := after (Flow_init 5) stuck_start.

Lemma execute_unresolved_target_witness :
  ∃ st', execute 5 stuck_planned = Raises (KeyError (target stuck_planned)) st' ∧
         printed st' = printed stuck_planned ++ [(2, MsgUnresolved (target stuck_planned))] ∧
         executed st' = executed stuck_planned.
Proof.
  apply (execute_unresolved_target 4 stuck_planned). compute_eq.
Defined.

(** ** Splitting the ports of a design *)

Section Split_examples.

Import SplitInouts.

Local Open Scope Z_scope.

(** The bits of a port with the nets 2 and 5 around a constant, split
    while the nets 0, 1 and 3 are in use. *)
Lemma split_bits_fresh_witness :
  Forall2 shaped [Net 2; Const "x"; Net 5] [Net 2; Const "x"; Net 4] ∧
  NoDup (nets_of [Net 2; Const "x"; Net 4]) ∧
  (∀ n, n ∈ nets_of [Net 2; Const "x"; Net 4] → n ∉ ({[ 0; 1; 3 ]} : gset Z)) ∧
  ({[ 0; 1; 2; 3; 4 ]} : gset Z) = {[ 0; 1; 3 ]} ∪ get_nets [Net 2; Const "x"; Net 4] ∧
  (∀ n, Net n ∈ [Net 2; Const "x"; Net 5] →
        ∃ m, ({[ 2 := {[ "i" := 2 ]}; 5 := {[ "i" := 4 ]} ]} : gmap Z (gmap string Z)) !! n
               ≫= (fun ds => ds !! "i") = Some m ∧
             Net m ∈ [Net 2; Const "x"; Net 4]) ∧
  (∀ n, Net n ∉ [Net 2; Const "x"; Net 5] →
        ({[ 2 := {[ "i" := 2 ]}; 5 := {[ "i" := 4 ]} ]} : gmap Z (gmap string Z)) !! n
        = (∅ : gmap Z (gmap string Z)) !! n).
Proof.
  apply (split_bits_fresh "i" [Net 2; Const "x"; Net 5] {[ 0; 1; 3 ]} ∅
                          [Net 2; Const "x"; Net 4] {[ 0; 1; 2; 3; 4 ]}
                          {[ 2 := {[ "i" := 2 ]}; 5 := {[ "i" := 4 ]} ]}).
  compute_eq.
Defined.

(** The design of the documentation of the script: an input [A], an
    output [B] and an inout [C], on the nets 2, 3 and 4. *)
Definition top_ports : list (string * port) :=
  [ ("A", mkPort "input" [Net 2]); ("B", mkPort "output" [Net 3]);
    ("C", mkPort "inout" [Net 4]) ].

Definition top_split : splitting :=
  mkSplitting
    {[ "A" := mkPort "input" [Net 2]; "B" := mkPort "output" [Net 3];
       "C_$inp" := mkPort "input" [Net 4]; "C_$out" := mkPort "output" [Net 5] ]}
    {[ 2; 3; 4; 5 ]}
    {[ "C_$inp" := mkPort "input" [Net 4]; "C_$out" := mkPort "output" [Net 5] ]}
    {[ 4 := {[ "i" := 4; "o" := 5 ]} ]}
    [ ("C", "C_$inp"); ("C", "C_$out") ].

Lemma split_inouts_leaves_no_inout_witness :
  (∀ name p, module_ports top_split !! name = Some p → direction p ≠ "inout") ∧
  port_map top_split = concat (port_pairs <$> filter is_inout top_ports).
Proof.
  apply (split_inouts_leaves_no_inout top_ports {[ 2; 3; 4 ]} top_split).
  compute_eq.
Defined.

Lemma split_inouts_net_map_witness :
  (∀ n, is_Some (net_map_of top_split !! n) ↔
        ∃ name p, (name, p) ∈ top_ports ∧ direction p = "inout" ∧ Net n ∈ bits p) ∧
  (∀ n ds, net_map_of top_split !! n = Some ds →
           ∃ i o, ds !! "i" = Some i ∧ ds !! "o" = Some o ∧ i ≠ o).
Proof.
  apply (split_inouts_net_map top_ports {[ 2; 3; 4 ]} top_split).
  compute_eq.
Defined.

(** The connections of the buffer of the design: its port [IO_$out] is on
    the net of [C] and becomes connected to the net of [C_$out]. *)
Lemma remap_after_split_witness :
  remap_connection (net_map_of top_split)
                   {[ "I" := "input"; "O" := "output"; "IO_$inp" := "input";
                      "IO_$out" := "output" ]}
                   "IO_$out" [Net 4]
  = Some (if bool_decide ("output" = "input") && endswith "IO_$out" "$inp"
          then image "i" (net_map_of top_split) <$> [Net 4]
          else if bool_decide ("output" = "output") && endswith "IO_$out" "$out"
               then image "o" (net_map_of top_split) <$> [Net 4]
               else [Net 4]).
Proof.
  apply (remap_after_split top_ports {[ 2; 3; 4 ]} top_split
           {[ "I" := "input"; "O" := "output"; "IO_$inp" := "input"; "IO_$out" := "output" ]}
           "IO_$out" "output" [Net 4]); compute_eq.
Defined.

Example remap_of_the_buffer :
  remap_connection (net_map_of top_split)
                   {[ "I" := "input"; "O" := "output"; "IO_$inp" := "input";
                      "IO_$out" := "output" ]}
                   "IO_$out" [Net 4]
  = Some [Net 5].
Proof. compute_eq. Qed.

End Split_examples.
